(** * distsync: a shallow embedding of the consistent-hash ring, the storage
    node, the client chunker and the coordinator, with the properties the
    specification states about them.

    Conventions of the embedding.
    - A Python [str] is a Rocq [string] holding its UTF-8 bytes, so
      [key.encode("utf-8")] is the identity on the representation;
      concatenation, [replace("/", "_")] and [os.path.basename] act on the
      bytes as they act on the code points.
    - A Python [int] is a [Z]; list positions are [nat].
    - A [dict] is a [gmap]; iteration order of a dict is never observed by
      the code modelled here (only membership, emptiness and size are).
    - A loop that may fail to terminate takes fuel and answers [None] when
      the fuel runs out; the termination theorems show that the length of
      the ring is enough fuel in every reachable state.
    - [time.time()] is an input ([now]) of the operations that read it. *)

From Stdlib Require Import ZArith List String Ascii Floats.
From Stdlib.Strings Require Import Byte.
From stdpp Require Import gmap strings list fin_maps pretty sorting.
Import ListNotations.
Local Open Scope Z_scope.
Set Warnings "-clear-no-such-hyp".

(* ===================================================================== *)
(** * Part I: the embedding *)
(* ===================================================================== *)

(** ** hashlib.sha256 (FIPS 180-4), on 32-bit words held in [Z] *)
Module SHA256.

(** wrap-around of a 32-bit word *)
Definition w32 (x : Z) : Z := Z.land x 4294967295.
Definition add32 (x y : Z) : Z := w32 (x + y).
Definition rotr (n x : Z) : Z := Z.lor (Z.shiftr x n) (w32 (Z.shiftl x (32 - n))).
Definition shr (n x : Z) : Z := Z.shiftr x n.
Definition Ch (x y z : Z) : Z := Z.lxor (Z.land x y) (Z.land (Z.lxor x 4294967295) z).
Definition Maj (x y z : Z) : Z := Z.lxor (Z.lxor (Z.land x y) (Z.land x z)) (Z.land y z).
Definition Sigma0 (x : Z) : Z := Z.lxor (Z.lxor (rotr 2 x) (rotr 13 x)) (rotr 22 x).
Definition Sigma1 (x : Z) : Z := Z.lxor (Z.lxor (rotr 6 x) (rotr 11 x)) (rotr 25 x).
Definition sigma0 (x : Z) : Z := Z.lxor (Z.lxor (rotr 7 x) (rotr 18 x)) (shr 3 x).
Definition sigma1 (x : Z) : Z := Z.lxor (Z.lxor (rotr 17 x) (rotr 19 x)) (shr 10 x).

(** the round constants and the initial hash value of FIPS 180-4, in decimal *)
Definition K : list Z :=
  [ 1116352408; 1899447441; 3049323471; 3921009573; 961987163; 1508970993; 2453635748; 2870763221;
    3624381080; 310598401; 607225278; 1426881987; 1925078388; 2162078206; 2614888103; 3248222580;
    3835390401; 4022224774; 264347078; 604807628; 770255983; 1249150122; 1555081692; 1996064986;
    2554220882; 2821834349; 2952996808; 3210313671; 3336571891; 3584528711; 113926993; 338241895;
    666307205; 773529912; 1294757372; 1396182291; 1695183700; 1986661051; 2177026350; 2456956037;
    2730485921; 2820302411; 3259730800; 3345764771; 3516065817; 3600352804; 4094571909; 275423344;
    430227734; 506948616; 659060556; 883997877; 958139571; 1322822218; 1537002063; 1747873779;
    1955562222; 2024104815; 2227730452; 2361852424; 2428436474; 2756734187; 3204031479; 3329325298 ].

Definition H0 : list Z :=
  [ 1779033703; 3144134277; 1013904242; 2773480762; 1359893119; 2600822924; 528734635; 1541459225 ].

(** big-endian value of a list of digits in base [base] *)
Definition be (base : Z) (ds : list Z) : Z := fold_left (fun acc d => acc * base + d) ds 0.

Fixpoint be_bytes (n : nat) (x : Z) : list Z :=
  match n with
  | O => []
  | S n' => be_bytes n' (x / 256) ++ [x mod 256]
  end.

(** the message, a 1 bit, zeros up to 56 modulo 64, the bit length on 8 bytes *)
Definition pad (msg : list Z) : list Z :=
  let n := Z.of_nat (length msg) in
  msg ++ [128] ++ repeat 0 (Z.to_nat ((55 - n) mod 64)) ++ be_bytes 8 (8 * n).

Fixpoint groups {A} (k n : nat) (l : list A) : list (list A) :=
  match n with
  | O => []
  | S n' => firstn k l :: groups k n' (skipn k l)
  end.

(** message schedule: [win] holds the last 16 words, oldest first *)
Fixpoint schedule (n : nat) (win : list Z) : list Z :=
  match n with
  | O => []
  | S n' =>
      let w := add32 (add32 (add32 (sigma1 (nth 14 win 0)) (nth 9 win 0))
                            (sigma0 (nth 1 win 0))) (nth 0 win 0) in
      w :: schedule n' (tl win ++ [w])
  end.

Definition round (st : list Z) (kw : Z * Z) : list Z :=
  match st with
  | [a; b; c; d; e; f; g; h] =>
      let t1 := add32 (add32 (add32 (add32 h (Sigma1 e)) (Ch e f g)) (fst kw)) (snd kw) in
      let t2 := add32 (Sigma0 a) (Maj a b c) in
      [add32 t1 t2; a; b; c; add32 d t1; e; f; g]
  | _ => st
  end.

Definition compress (hs : list Z) (block : list Z) : list Z :=
  let w16 := map (be 256) (groups 4 16 block) in
  let w := w16 ++ schedule 48 w16 in
  map (fun p => add32 (fst p) (snd p)) (combine hs (fold_left round (combine K w) hs)).

Definition bytes_of_string (s : string) : list Z :=
  map (fun c => Z.of_N (N_of_ascii c)) (list_ascii_of_string s).

(** [int(hashlib.sha256(bytes).hexdigest(), 16)] *)
Definition digest (msg : list Z) : Z :=
  let p := pad msg in
  be 4294967296 (fold_left compress (groups 64 (Nat.div (length p) 64) p) H0).

End SHA256.

(** ** Python built-ins used by the sources *)
Module Py.

(** [s < t] on [str]: lexicographic on code points, which on UTF-8 is
    lexicographic on bytes *)
Fixpoint str_lt (s t : string) : bool :=
  match s, t with
  | _, EmptyString => false
  | EmptyString, String _ _ => true
  | String a s', String b t' =>
      if N.ltb (N_of_ascii a) (N_of_ascii b) then true
      else if N.ltb (N_of_ascii b) (N_of_ascii a) then false
      else str_lt s' t'
  end.

(** [x < y] on tuples [(int, str)]: the first differing component decides *)
Definition tuple_lt (x y : Z * string) : bool :=
  if Z.eqb x.1 y.1 then str_lt x.2 y.2 else Z.ltb x.1 y.1.

(** [bisect.bisect_right(a, x)]:
<<
    lo, hi = 0, len(a)
    while lo < hi:
        mid = (lo + hi) // 2
        if x < a[mid]: hi = mid
        else: lo = mid + 1
    return lo
>> *)
Fixpoint bisect_loop (fuel : nat) (a : list (Z * string)) (x : Z * string)
    (lo hi : nat) : option nat :=
  if bool_decide (lo < hi)%nat then
    match fuel with
    | O => None
    | S fuel' =>
        let mid := ((lo + hi) / 2)%nat in
        e ← a !! mid;
        if tuple_lt x e then bisect_loop fuel' a x lo mid
        else bisect_loop fuel' a x (S mid) hi
    end
  else Some lo.

Definition bisect_right (a : list (Z * string)) (x : Z * string) : option nat :=
  bisect_loop (S (length a)) a x 0%nat (length a).

(** [list.sort(key=lambda x: x[0])]: the stable sort on the first component,
    as a stable insertion sort (an element goes before the first element
    whose key is not smaller, so equal keys keep their order) *)
Fixpoint insert_by_key (x : Z * string) (l : list (Z * string)) : list (Z * string) :=
  match l with
  | [] => [x]
  | y :: l' => if bool_decide (x.1 ≤ y.1) then x :: y :: l' else y :: insert_by_key x l'
  end.

Definition sort_by_key (l : list (Z * string)) : list (Z * string) :=
  foldr insert_by_key [] l.

(** [range(n)] *)
Definition range (n : Z) : list Z := seqZ 0 n.

(** [str(i)] for an int, as in an f-string *)
Definition str_of_int (i : Z) : string := pretty i.

(** [s.replace(old, new)] for single characters *)
Fixpoint replace_char (old new : ascii) (s : string) : string :=
  match s with
  | EmptyString => EmptyString
  | String c s' => String (if Ascii.eqb c old then new else c) (replace_char old new s')
  end.

(** [data[lo:hi]] for [0 <= lo]: the elements at positions [lo <= i < hi];
    [i] is the position of the head of [l] *)
Fixpoint slice_from {A} (i : Z) (l : list A) (lo hi : Z) : list A :=
  match l with
  | [] => []
  | x :: l' =>
      if bool_decide (lo ≤ i < hi) then x :: slice_from (i + 1) l' lo hi
      else slice_from (i + 1) l' lo hi
  end.

Definition slice {A} (l : list A) (lo hi : Z) : list A := slice_from 0 l lo hi.

(** [os.path.basename(p)]: what follows the last "/" *)
Fixpoint basename_from (acc : string) (p : string) : string :=
  match p with
  | EmptyString => acc
  | String c p' =>
      if Ascii.eqb c "/"%char then basename_from EmptyString p'
      else basename_from (acc +:+ String c EmptyString) p'
  end.

Definition basename (p : string) : string := basename_from EmptyString p.

(** [s * n] *)
Fixpoint str_repeat (s : string) (n : nat) : string :=
  match n with
  | O => EmptyString
  | S n' => s +:+ str_repeat s n'
  end.

(** [c in s] for a character *)
Fixpoint contains (c : ascii) (s : string) : bool :=
  match s with
  | EmptyString => false
  | String a s' => if Ascii.eqb a c then true else contains c s'
  end.

(** The exceptions the modelled code raises. *)
Inductive exception := ZeroDivisionError | ValueError | OSError.

(** A value, or the exception raised in its place. *)
Inductive result (A : Type) :=
  | Ok (a : A)
  | Raise (e : exception).
Arguments Ok {A} a.
Arguments Raise {A} e.

End Py.

(** ** master/hash_ring.py *)
Module hash_ring.

Record ConsistentHashRing := {
  _replication_factor : Z;
  _ring : list (Z * string);
  _nodes : gmap string (list Z)
}.

(** [ConsistentHashRing(replication_factor)] *)
Definition new (replication_factor : Z) : ConsistentHashRing :=
  {| _replication_factor := replication_factor; _ring := []; _nodes := ∅ |}.

Definition _hash_key (key : string) : Z :=
  SHA256.digest (SHA256.bytes_of_string key).

(** the hashes of [f"{node_id}:{i}"] for [i] in [range(replication_factor)] *)
Definition points_of (replication_factor : Z) (node_id : string) : list Z :=
  (λ i, _hash_key (node_id +:+ ":" +:+ Py.str_of_int i)) <$> Py.range replication_factor.

Definition add_node (r : ConsistentHashRing) (node_id : string) : ConsistentHashRing :=
  match r.(_nodes) !! node_id with
  | Some _ => r
  | None =>
      let points := points_of r.(_replication_factor) node_id in
      {| _replication_factor := r.(_replication_factor);
         _ring := Py.sort_by_key (r.(_ring) ++ ((λ h, (h, node_id)) <$> points));
         _nodes := <[node_id := points]> r.(_nodes) |}
  end.

Definition remove_node (r : ConsistentHashRing) (node_id : string) : ConsistentHashRing :=
  match r.(_nodes) !! node_id with
  | None => r
  | Some points =>
      {| _replication_factor := r.(_replication_factor);
         _ring := filter (λ e, ¬ (e.2 = node_id ∧ e.1 ∈ points)) r.(_ring);
         _nodes := delete node_id r.(_nodes) |}
  end.

(** the [while] loop of [get_nodes_for_key]; [target] is
    [min(count, len(self._nodes))] *)
Fixpoint walk (fuel : nat) (ring : list (Z * string)) (target : Z) (i : nat)
    (selected : list string) (seen : gset string) : option (list string) :=
  if bool_decide (Z.of_nat (length selected) < target) then
    match fuel with
    | O => None
    | S fuel' =>
        e ← ring !! (i mod length ring)%nat;
        if bool_decide (e.2 ∈ seen) then walk fuel' ring target (S i) selected seen
        else walk fuel' ring target (S i) (selected ++ [e.2]) ({[ e.2 ]} ∪ seen)
    end
  else Some selected.

Definition get_nodes_for_key (fuel : nat) (r : ConsistentHashRing) (key : string)
    (count : Z) : option (list string) :=
  match r.(_ring) with
  | [] => Some []
  | _ =>
      idx ← Py.bisect_right r.(_ring) (_hash_key key, EmptyString);
      walk fuel r.(_ring) (Z.min count (Z.of_nat (size r.(_nodes)))) idx [] ∅
  end.

(** [nodes()]: the registered identifiers. The code lists them in the order
    of their registration; the registry here keeps no order, and the one
    caller tests membership only. *)
Definition nodes (r : ConsistentHashRing) : list string := (map_to_list r.(_nodes)).*1.

(** A ring is only ever changed through [add_node] and [remove_node]. *)
Inductive op := Add (node_id : string) | Remove (node_id : string).

Definition apply_op (r : ConsistentHashRing) (o : op) : ConsistentHashRing :=
  match o with
  | Add n => add_node r n
  | Remove n => remove_node r n
  end.

Definition run (replication_factor : Z) (ops : list op) : ConsistentHashRing :=
  foldl apply_op (new replication_factor) ops.

(** *** The lookup as the specification words it

    The position of the first entry that satisfies [p] (the length of the
    list when there is none, which a walk takes modulo the length, that is
    as the start of the list). *)
Fixpoint first_index (p : Z * string → bool) (ring : list (Z * string)) : nat :=
  match ring with
  | [] => 0%nat
  | e :: ring' => if p e then 0%nat else S (first_index p ring')
  end.

(** the first entry whose hash is strictly greater than [h]: the upper
    bound, or clockwise successor, of the specification *)
Definition upper_bound (ring : list (Z * string)) (h : Z) : nat :=
  first_index (λ e, bool_decide (h < e.1)) ring.

(** the first entry whose hash is at least [h] *)
Definition lower_bound (ring : list (Z * string)) (h : Z) : nat :=
  first_index (λ e, bool_decide (h ≤ e.1)) ring.

(** the elements of [l] after those of [acc], each the first time it is seen *)
Definition collect (acc l : list string) : list string :=
  foldl (λ acc x, if bool_decide (x ∈ acc) then acc else acc ++ [x]) acc l.

Definition first_seen (l : list string) : list string := collect [] l.

(** The walk from position [start], forward and around the ring, collecting
    each node identifier the first time it is seen, until [count]
    identifiers are collected or the [n_nodes] registered nodes are
    exhausted. *)
Definition walk_order (ring : list (Z * string)) (start : nat) (count : Z) (n_nodes : nat)
    : list string :=
  take (Z.to_nat (Z.min count (Z.of_nat n_nodes))) (first_seen (rotate start ring).*2).

End hash_ring.

(** ** The messages of the schema and the outcome of an RPC *)
Module pb.

Module FileChunk.
(** Modelled from the spec: the Chunk message of protos/distsync.proto, which
    is not among the sources; fields as section 4.1 of the specification
    lists them. *)
Record t := { filename : string; data : list byte; chunk_id : Z; total_chunks : Z }.
End FileChunk.

Module ChunkRequest.
(** Modelled from the spec: the request of GetChunk (filename and chunk_id). *)
Record t := { filename : string; chunk_id : Z }.
End ChunkRequest.

Module FileRequest.
(** Modelled from the spec: the request of DownloadFile (filename). *)
Record t := { filename : string }.
End FileRequest.

Module NodeInfo.
(** Modelled from the spec: the NodeInfo message (node_id, address). *)
Record t := { node_id : string; address : string }.
End NodeInfo.

Module NodeHeartbeat.
(** Modelled from the spec: the NodeHeartbeat message (node_id). *)
Record t := { node_id : string }.
End NodeHeartbeat.

Module Ack.
(** Modelled from the spec: the Ack message (success, message). *)
Record t := { success : bool; message : string }.
End Ack.

Module UploadStatus.
(** Modelled from the spec: the UploadStatus message (message). *)
Record t := { message : string }.
End UploadStatus.

End pb.

Module grpc.

Inductive StatusCode := NOT_FOUND | FAILED_PRECONDITION | UNAVAILABLE | UNKNOWN.

(** What a servicer method gives its caller: the message it returns, or the
    status of [context.abort(code, details)] (an exception on both sides),
    or the exception the handler raises and does not catch (the caller's
    stub then raises an error of status UNKNOWN). *)
Inductive outcome (A : Type) :=
  | Reply (a : A)
  | Abort (code : StatusCode) (details : string)
  | Raised (e : Py.exception).
Arguments Reply {A} a.
Arguments Abort {A} code details.
Arguments Raised {A} e.

End grpc.

(** ** node/node_server.py *)
Module node_server.

(** The files under [self._storage_dir], by name. *)
Abbreviation storage := (gmap string (list byte)).

(** The name, under the storage directory, of [_chunk_path(filename, chunk_id)]. *)
Definition _chunk_path (filename : string) (chunk_id : Z) : string :=
  Py.replace_char "/" "_" filename +:+ "." +:+ Py.str_of_int chunk_id +:+ ".chunk".

(** The longest file name, in bytes, that the file systems of Linux take. *)
Definition NAME_MAX : nat := 255.

(** The number of bytes of the name [_chunk_path] gives. An integer field of
    the schema holds 64 bits at most, so the decimal text of the chunk id of
    a request has 20 characters at most; the count of its characters stops
    there. *)
Definition name_bytes (filename : string) (chunk_id : Z) : nat :=
  (String.length (Py.replace_char "/" "_" filename) + 1
   + Nat.min (String.length (Py.str_of_int chunk_id)) 20 + 6)%nat.

(** What [open(p, "wb")] and [os.stat(p)] raise for the name of a chunk:
    ValueError for a name with a NUL character (before any system call),
    OSError (ENAMETOOLONG) for a name of more than NAME_MAX bytes, and
    nothing otherwise. The storage directory exists (it is made at
    startup), holds regular files only, is writable and has room, and its
    path leaves room below PATH_MAX for a name of NAME_MAX bytes. *)
Definition name_error (filename : string) (chunk_id : Z) : option Py.exception :=
  if Py.contains "000" (_chunk_path filename chunk_id) then Some Py.ValueError
  else if bool_decide (NAME_MAX < name_bytes filename chunk_id)%nat then Some Py.OSError
  else None.

(** The disk after the call, and the Ack or the exception of [open]. *)
Definition StoreChunk (disk : storage) (request : pb.FileChunk.t)
    : storage * grpc.outcome pb.Ack.t :=
  let p := _chunk_path request.(pb.FileChunk.filename) request.(pb.FileChunk.chunk_id) in
  match name_error request.(pb.FileChunk.filename) request.(pb.FileChunk.chunk_id) with
  | Some e => (disk, grpc.Raised e)
  | None =>
      (<[p := request.(pb.FileChunk.data)]> disk,
       grpc.Reply {| pb.Ack.success := true; pb.Ack.message := "stored" |})
  end.

(** [p.exists()] (pathlib of CPython 3.11) answers False when [os.stat]
    raises ValueError and lets ENAMETOOLONG through. *)
Definition GetChunk (disk : storage) (request : pb.ChunkRequest.t)
    : grpc.outcome pb.FileChunk.t :=
  let p := _chunk_path request.(pb.ChunkRequest.filename) request.(pb.ChunkRequest.chunk_id) in
  match name_error request.(pb.ChunkRequest.filename) request.(pb.ChunkRequest.chunk_id) with
  | Some Py.OSError => grpc.Raised Py.OSError
  | Some _ => grpc.Abort grpc.NOT_FOUND "chunk not found"
  | None =>
      match disk !! p with
      | None => grpc.Abort grpc.NOT_FOUND "chunk not found"
      | Some data =>
          grpc.Reply {| pb.FileChunk.filename := request.(pb.ChunkRequest.filename);
                        pb.FileChunk.data := data;
                        pb.FileChunk.chunk_id := request.(pb.ChunkRequest.chunk_id);
                        pb.FileChunk.total_chunks := 0 |}
      end
  end.


End node_server.

(** ** master/master_server.py *)
Module master_server.

Record Coordinator := {
  _replication : Z;
  _ring : hash_ring.ConsistentHashRing;
  _node_address : gmap string string;
  _node_last_heartbeat : gmap string float;
  _file_index : gmap string (gmap string Z)
}.

(** The document [_save_metadata] writes: {"nodes": ..., "files": ...}. *)
Record Metadata := {
  nodes : gmap string string;
  files : gmap string (gmap string Z)
}.

(** The coordinator, the metadata file on its disk ([None]: no file), and
    the storage nodes that answer, by the address they listen on. *)
Record World := {
  coordinator : Coordinator;
  metadata_file : option Metadata;
  cluster : gmap string node_server.storage
}.

Definition set_coordinator (w : World) (c : Coordinator) : World :=
  {| coordinator := c; metadata_file := w.(metadata_file); cluster := w.(cluster) |}.

Definition _save_metadata (w : World) : World :=
  {| coordinator := w.(coordinator);
     metadata_file := Some {| nodes := w.(coordinator).(_node_address);
                              files := w.(coordinator).(_file_index) |};
     cluster := w.(cluster) |}.

(** [now - ts <= 10.0], on binary64 floats *)
Definition within_window (now ts : float) : bool :=
  PrimFloat.leb (PrimFloat.sub now ts) 10%float.

Definition _live_nodes (c : Coordinator) (now : float) : list string :=
  (filter (λ p, within_window now p.2 = true) (map_to_list c.(_node_last_heartbeat))).*1.

(** [Coordinator(replication, metadata_path)], for a metadata file that is
    absent or holds a document; [now] is the clock reading given to every
    node the document lists. *)
Definition init (replication : Z) (now : float) (file : option Metadata)
    (nodes_up : gmap string node_server.storage) : World :=
  let fresh := {| _replication := replication; _ring := hash_ring.new 128;
                  _node_address := ∅; _node_last_heartbeat := ∅; _file_index := ∅ |} in
  match file with
  | None =>
      _save_metadata {| coordinator := fresh; metadata_file := None; cluster := nodes_up |}
  | Some doc =>
      let loaded :=
        map_fold (λ node_id address c,
                    {| _replication := c.(_replication);
                       _ring := hash_ring.add_node c.(_ring) node_id;
                       _node_address := <[node_id := address]> c.(_node_address);
                       _node_last_heartbeat := <[node_id := now]> c.(_node_last_heartbeat);
                       _file_index := c.(_file_index) |})
                 {| _replication := replication; _ring := hash_ring.new 128;
                    _node_address := ∅; _node_last_heartbeat := ∅;
                    _file_index := doc.(files) |}
                 doc.(nodes) in
      {| coordinator := loaded; metadata_file := Some doc; cluster := nodes_up |}
  end.

Definition RegisterNode (now : float) (request : pb.NodeInfo.t) (w : World)
    : pb.Ack.t * World :=
  let c := w.(coordinator) in
  let node_id := request.(pb.NodeInfo.node_id) in
  let c' :=
    {| _replication := c.(_replication);
       _ring := if bool_decide (node_id ∈ hash_ring.nodes c.(_ring)) then c.(_ring)
                else hash_ring.add_node c.(_ring) node_id;
       _node_address := <[node_id := request.(pb.NodeInfo.address)]> c.(_node_address);
       _node_last_heartbeat := <[node_id := now]> c.(_node_last_heartbeat);
       _file_index := c.(_file_index) |} in
  ({| pb.Ack.success := true; pb.Ack.message := "registered" |},
   _save_metadata (set_coordinator w c')).

Definition Heartbeat (now : float) (request : pb.NodeHeartbeat.t) (w : World)
    : pb.Ack.t * World :=
  let c := w.(coordinator) in
  let node_id := request.(pb.NodeHeartbeat.node_id) in
  match c.(_node_address) !! node_id with
  | Some _ =>
      ({| pb.Ack.success := true; pb.Ack.message := "ok" |},
       set_coordinator w
         {| _replication := c.(_replication); _ring := c.(_ring);
            _node_address := c.(_node_address);
            _node_last_heartbeat := <[node_id := now]> c.(_node_last_heartbeat);
            _file_index := c.(_file_index) |})
  | None => ({| pb.Ack.success := false; pb.Ack.message := "unknown node" |}, w)
  end.

(** The placement loop of [UploadFile]: [inl message] when the loop returns
    a status, [inr placements] when it runs to its end. The dictionary
    [chunk_map] the loop also fills is never read and is left out. *)
Fixpoint place (fuel : nat) (c : Coordinator) (filename : string) (live_nodes : list string)
    (chunks : list pb.FileChunk.t) (placements : gmap Z (list string))
    : option (string + gmap Z (list string)) :=
  match chunks with
  | [] => Some (inr placements)
  | chunk :: chunks' =>
      let key := filename +:+ ":" +:+ Py.str_of_int chunk.(pb.FileChunk.chunk_id) in
      node_ids ← hash_ring.get_nodes_for_key fuel c.(_ring) key c.(_replication);
      match filter (λ n, n ∈ live_nodes) node_ids with
      | [] => Some (inl "no live nodes for chunk")
      | node_ids =>
          place fuel c filename live_nodes chunks'
                (<[chunk.(pb.FileChunk.chunk_id) := node_ids]> placements)
      end
  end.

(** [store_to_node(node_id, chunk)] run to its end; an exception in it (no
    address for the node, no node answering at the address) is logged by
    the caller and changes nothing. *)
Definition store_to_node (c : Coordinator) (nodes_up : gmap string node_server.storage)
    (job : string * pb.FileChunk.t) : gmap string node_server.storage :=
  match c.(_node_address) !! job.1 with
  | None => nodes_up
  | Some address =>
      match nodes_up !! address with
      | None => nodes_up
      | Some disk => <[address := (node_server.StoreChunk disk job.2).1]> nodes_up
      end
  end.

(** The jobs in the order they are submitted to the pool. *)
Definition fanout_jobs (chunks : list pb.FileChunk.t) (placements : gmap Z (list string))
    : list (string * pb.FileChunk.t) :=
  chunk ← chunks;
  (λ nid, (nid, chunk)) <$> default [] (placements !! chunk.(pb.FileChunk.chunk_id)).

(** [order] is the order in which the pool runs the submitted jobs (each
    [StoreChunk] is one step: a node serialises its writes). *)
Definition UploadFile (fuel : nat)
    (order : list (string * pb.FileChunk.t) → list (string * pb.FileChunk.t))
    (now : float) (request_iterator : list pb.FileChunk.t) (w : World)
    : option (pb.UploadStatus.t * World) :=
  match request_iterator with
  | [] => Some ({| pb.UploadStatus.message := "no data" |}, w)
  | first :: _ =>
      let chunks := request_iterator in
      let c := w.(coordinator) in
      let filename := first.(pb.FileChunk.filename) in
      let total_chunks :=
        if bool_decide (first.(pb.FileChunk.total_chunks) = 0) then Z.of_nat (length chunks)
        else first.(pb.FileChunk.total_chunks) in
      let live_nodes := _live_nodes c now in
      match live_nodes with
      | [] => Some ({| pb.UploadStatus.message := "no live nodes" |}, w)
      | _ =>
          placed ← place fuel c filename live_nodes chunks ∅;
          match placed with
          | inl message => Some ({| pb.UploadStatus.message := message |}, w)
          | inr placements =>
              let nodes_up :=
                foldl (store_to_node c) w.(cluster) (order (fanout_jobs chunks placements)) in
              let c' :=
                {| _replication := c.(_replication); _ring := c.(_ring);
                   _node_address := c.(_node_address);
                   _node_last_heartbeat := c.(_node_last_heartbeat);
                   _file_index := <[filename := {[ "total_chunks" := total_chunks ]}]>
                                    c.(_file_index) |} in
              Some ({| pb.UploadStatus.message := "ok" |},
                    _save_metadata {| coordinator := c';
                                      metadata_file := w.(metadata_file);
                                      cluster := nodes_up |})
          end
      end
  end.

(** The inner loop of [DownloadFile] over the replica candidates of a chunk:
    a chunk was sent, or the candidates are exhausted, or a live candidate
    has no address ([self._node_address[nid]] raises, outside the [try]). *)
Inductive fetched :=
  | Sent (chunk : pb.FileChunk.t)
  | NotSent
  | KeyError.

Fixpoint fetch (c : Coordinator) (nodes_up : gmap string node_server.storage)
    (live_nodes : list string) (filename : string) (cid : Z) (node_ids : list string)
    : fetched :=
  match node_ids with
  | [] => NotSent
  | nid :: node_ids' =>
      if bool_decide (nid ∈ live_nodes) then
        match c.(_node_address) !! nid with
        | None => KeyError
        | Some address =>
            match nodes_up !! address with
            | None => fetch c nodes_up live_nodes filename cid node_ids'
            | Some disk =>
                match node_server.GetChunk disk
                        {| pb.ChunkRequest.filename := filename;
                           pb.ChunkRequest.chunk_id := cid |} with
                | grpc.Reply chunk => Sent chunk
                | grpc.Abort _ _ => fetch c nodes_up live_nodes filename cid node_ids'
                | grpc.Raised _ => fetch c nodes_up live_nodes filename cid node_ids'
                end
            end
        end
      else fetch c nodes_up live_nodes filename cid node_ids'
  end.

(** The chunks a download streams, and the status that ends the stream
    when it is aborted (UNKNOWN is what gRPC reports for an exception the
    handler does not catch). *)
Definition stream := (list pb.FileChunk.t * option (grpc.StatusCode * string))%type.

Fixpoint download_loop (fuel : nat) (w : World) (live_nodes : list string)
    (filename : string) (cids : list Z) : option stream :=
  match cids with
  | [] => Some ([], None)
  | cid :: cids' =>
      let c := w.(coordinator) in
      let key := filename +:+ ":" +:+ Py.str_of_int cid in
      node_ids ← hash_ring.get_nodes_for_key fuel c.(_ring) key c.(_replication);
      match fetch c w.(cluster) live_nodes filename cid node_ids with
      | Sent chunk =>
          rest ← download_loop fuel w live_nodes filename cids';
          Some (chunk :: rest.1, rest.2)
      | NotSent =>
          Some ([], Some (grpc.UNAVAILABLE,
                          "chunk " +:+ Py.str_of_int cid +:+ " unavailable"))
      | KeyError => Some ([], Some (grpc.UNKNOWN, "KeyError"))
      end
  end.

Definition DownloadFile (fuel : nat) (now : float) (request : pb.FileRequest.t) (w : World)
    : option stream :=
  let c := w.(coordinator) in
  let filename := request.(pb.FileRequest.filename) in
  match c.(_file_index) !! filename with
  | None => Some ([], Some (grpc.NOT_FOUND, "file not found"))
  | Some info =>
      if bool_decide (info = ∅) then Some ([], Some (grpc.NOT_FOUND, "file not found"))
      else
        let total_chunks := default 0 (info !! "total_chunks") in
        let live_nodes := _live_nodes c now in
        match live_nodes with
        | [] => Some ([], Some (grpc.FAILED_PRECONDITION, "no live nodes"))
        | _ => download_loop fuel w live_nodes filename (Py.range total_chunks)
        end
  end.

End master_server.

(** ** client/client.py *)
Module client.

Definition DEFAULT_CHUNK_SIZE : Z := 1024 * 1024.

(** The chunks the generator yields; [data] is what
    [Path(filename).read_bytes()] reads. The division by a [chunk_size] of
    0 raises ZeroDivisionError. *)
Definition stream_file_chunks (filename : string) (data : list byte) (chunk_size : Z)
    : Py.result (list pb.FileChunk.t) :=
  if bool_decide (chunk_size = 0) then Py.Raise Py.ZeroDivisionError
  else
    let total_chunks := (Z.of_nat (length data) + chunk_size - 1) / chunk_size in
    Py.Ok ((λ i, let off := i * chunk_size in
                 {| pb.FileChunk.filename := Py.basename filename;
                    pb.FileChunk.data := Py.slice data off (off + chunk_size);
                    pb.FileChunk.chunk_id := i;
                    pb.FileChunk.total_chunks := total_chunks |})
             <$> Py.range total_chunks).

(** [upload(master, filepath)]: the message printed and the state left;
    [None] when the command prints none (the ring lookup of the
    coordinator does not return, or the chunk generator raises). *)
Definition upload (fuel : nat)
    (order : list (string * pb.FileChunk.t) → list (string * pb.FileChunk.t))
    (now : float) (filepath : string) (data : list byte) (w : master_server.World)
    : option (string * master_server.World) :=
  match stream_file_chunks filepath data DEFAULT_CHUNK_SIZE with
  | Py.Raise _ => None
  | Py.Ok chunks =>
      r ← master_server.UploadFile fuel order now chunks w;
      Some (r.1.(pb.UploadStatus.message), r.2)
  end.

(** [download(master, filename, out_path)]: the bytes written to [out_path],
    or the status of the RPC error that ends the command before it writes. *)
Definition download (fuel : nat) (now : float) (filename : string) (w : master_server.World)
    : option (grpc.StatusCode * string + list byte) :=
  s ← master_server.DownloadFile fuel now {| pb.FileRequest.filename := filename |} w;
  match s.2 with
  | Some status => Some (inl status)
  | None => Some (inr (concat ((λ part, part.(pb.FileChunk.data)) <$> s.1)))
  end.

End client.

(** ** Invariant of the ring *)

Definition hash_le (a b : Z * string) : Prop := a.1 ≤ b.1.

(** The list is sorted by hash, it holds exactly the recorded points of the
    registered nodes, and the points recorded under a node are the hashes of
    its virtual-point strings. *)
Record ring_inv (r : hash_ring.ConsistentHashRing) : Prop := {
  inv_sorted : StronglySorted hash_le r.(hash_ring._ring);
  inv_member : ∀ h n, (h, n) ∈ r.(hash_ring._ring) ↔
                 ∃ pts, r.(hash_ring._nodes) !! n = Some pts ∧ h ∈ pts;
  inv_points : ∀ n pts, r.(hash_ring._nodes) !! n = Some pts →
                 pts = hash_ring.points_of r.(hash_ring._replication_factor) n
}.

(** The node identifiers met by [k] steps of the walk that starts at
    position [i] (positions are taken modulo the length of the ring). *)
Fixpoint visited (ring : list (Z * string)) (i k : nat) : list string :=
  match k with
  | O => []
  | S k' =>
      match ring !! (i mod length ring)%nat with
      | Some e => e.2 :: visited ring (S i) k'
      | None => []
      end
  end.

(** The node set a sequence of calls yields: an [add_node] puts its node in,
    a [remove_node] takes it out. *)
Definition node_set (ops : list hash_ring.op) : gset string :=
  foldl (λ N o, match o with
                | hash_ring.Add n => {[ n ]} ∪ N
                | hash_ring.Remove n => N ∖ {[ n ]}
                end) ∅ ops.

(** ** Invariant of the coordinator

    The ring is the coordinator's (128 points per node, changed only by
    [add_node]), and the ring, the address map and the heartbeat map know
    the same nodes. *)
Record coord_inv (c : master_server.Coordinator) : Prop := {
  ci_ring : ring_inv c.(master_server._ring);
  ci_factor : c.(master_server._ring).(hash_ring._replication_factor) = 128;
  ci_heartbeat : dom c.(master_server._node_last_heartbeat)
                 =@{gset string} dom c.(master_server._ring).(hash_ring._nodes);
  ci_address : dom c.(master_server._node_address)
               =@{gset string} dom c.(master_server._ring).(hash_ring._nodes)
}.

(** The RPCs that change the coordinator, with the clock reading each takes. *)
Inductive event :=
  | Register (now : float) (request : pb.NodeInfo.t)
  | Beat (now : float) (request : pb.NodeHeartbeat.t).

Definition step (w : master_server.World) (e : event) : master_server.World :=
  match e with
  | Register now request => (master_server.RegisterNode now request w).2
  | Beat now request => (master_server.Heartbeat now request w).2
  end.

(** The placements agree with the ring: what is recorded under a chunk id
    is what the ring answers for the key of that chunk, filtered to the
    live nodes. *)
Definition agrees (fuel : nat) (c : master_server.Coordinator) (filename : string)
    (live_nodes : list string) (placements : gmap Z (list string)) : Prop :=
  ∀ i l', placements !! i = Some l' →
    ∃ l, hash_ring.get_nodes_for_key fuel c.(master_server._ring)
           (filename +:+ ":" +:+ Py.str_of_int i) c.(master_server._replication) = Some l ∧
         l' = filter (λ n, n ∈ live_nodes) l.

(** The location a fan-out job writes. *)
Definition job_path (job : string * pb.FileChunk.t) : string :=
  node_server._chunk_path (pb.FileChunk.filename job.2) (pb.FileChunk.chunk_id job.2).

(** ** Example states

    A coordinator started at time 100.0 with no metadata file and the given
    replication count, with one storage node "n1" answering at
    127.0.0.1:50051 (its storage directory empty) and registered at time
    100.0. *)
Definition example_node : pb.NodeInfo.t :=
  {| pb.NodeInfo.node_id := "n1"; pb.NodeInfo.address := "127.0.0.1:50051" |}.

Definition example_world (replication : Z) : master_server.World :=
  foldl step
    (master_server.init replication 100%float None {[ "127.0.0.1:50051" := ∅ ]})
    [Register 100%float example_node].

(** The same with a second storage node "n2", answering at 127.0.0.1:50052
    (its storage directory empty) and registered at time 105.0, and a
    heartbeat of "n1" at time 110.0: from 115.0 to 120.0 "n1" is live and
    "n2" is not. *)
Definition example_node2 : pb.NodeInfo.t :=
  {| pb.NodeInfo.node_id := "n2"; pb.NodeInfo.address := "127.0.0.1:50052" |}.

Definition example_world2 (replication : Z) : master_server.World :=
  foldl step
    (master_server.init replication 100%float None
       {[ "127.0.0.1:50051" := ∅; "127.0.0.1:50052" := ∅ ]})
    [Register 100%float example_node; Register 105%float example_node2;
     Beat 110%float {| pb.NodeHeartbeat.node_id := "n1" |}].

(** The same again, the storage directory of "n2" holding a chunk 0 of an
    older "f.txt". *)
Definition example_world_old (replication : Z) : master_server.World :=
  foldl step
    (master_server.init replication 100%float None
       {[ "127.0.0.1:50051" := ∅;
          "127.0.0.1:50052" := {[ "f.txt.0.chunk" := [Byte.x63] ]} ]})
    [Register 100%float example_node; Register 105%float example_node2;
     Beat 110%float {| pb.NodeHeartbeat.node_id := "n1" |}].

(** A file name of 250 bytes. *)
Definition example_long_name : string := Py.str_repeat "a" 250.

Definition example_chunk : pb.FileChunk.t :=
  {| pb.FileChunk.filename := "f.txt"; pb.FileChunk.data := [Byte.x61; Byte.x62];
     pb.FileChunk.chunk_id := 0; pb.FileChunk.total_chunks := 1 |}.

(* ===================================================================== *)
(** * Part II: properties *)
(* ===================================================================== *)

Section sha256_vectors.

(** The digests FIPS 180-4 gives for the empty message, for "abc" and for
    its two-block message, and those of the two strings the examples below
    hash. *)
Example sha256_empty :
  hash_ring._hash_key ""
  = 0xe3b0c44298fc1c149afbf4c8996fb92427ae41e4649b934ca495991b7852b855.
Proof. by vm_compute. Qed.

Example sha256_abc :
  hash_ring._hash_key "abc"
  = 0xba7816bf8f01cfea414140de5dae2223b00361a396177a9cb410ff61f20015ad.
Proof. by vm_compute. Qed.

Example sha256_two_blocks :
  hash_ring._hash_key "abcdbcdecdefdefgefghfghighijhijkijkljklmklmnlmnomnopnopq"
  = 0x248d6a61d20638b8e5c026930c3e6039a33ce45964ff2167f6ecedd419db06c1.
Proof. by vm_compute. Qed.

Example sha256_a0 :
  hash_ring._hash_key "a:0"
  = 0x0ed32d3352f0cddd88b03a266c387e1a4683d5356ce381463b4b42cf9ccadfaf.
Proof. by vm_compute. Qed.

Example sha256_b0 :
  hash_ring._hash_key "b:0"
  = 0xc107dfed5b01e372079e0514cc467382ff7322fee809648179679851f22f7e1e.
Proof. by vm_compute. Qed.
End sha256_vectors.

Section sorting_facts.
Import Py.

Lemma insert_by_key_perm x l : insert_by_key x l ≡ₚ x :: l.
Proof.
  induction l as [|y l IH]; simpl; [done|].
  case_bool_decide; [done|].
  rewrite IH. apply Permutation_swap.
Qed.

Lemma sort_by_key_perm l : sort_by_key l ≡ₚ l.
Proof.
  induction l as [|x l IH]; simpl; [done|].
  rewrite insert_by_key_perm. by rewrite IH.
Qed.

Lemma elem_of_sort_by_key e l : e ∈ sort_by_key l ↔ e ∈ l.
Proof. by rewrite sort_by_key_perm. Qed.

Lemma insert_by_key_sorted x l :
  StronglySorted hash_le l → StronglySorted hash_le (insert_by_key x l).
Proof.
  induction 1 as [|y l Hl IH Hy]; simpl.
  - repeat constructor.
  - case_bool_decide as Hxy.
    + constructor; [by constructor|].
      constructor; [done|].
      eapply Forall_impl; [exact Hy|]. unfold hash_le. intros z ?. lia.
    + constructor; [done|].
      rewrite insert_by_key_perm. constructor; [|done].
      unfold hash_le. lia.
Qed.

Lemma sort_by_key_sorted l : StronglySorted hash_le (sort_by_key l).
Proof.
  induction l as [|x l IH]; simpl; [constructor|].
  by apply insert_by_key_sorted.
Qed.

Lemma StronglySorted_filter_keep {A} (R : relation A) (P : A → Prop)
    `{!∀ x, Decision (P x)} (l : list A) :
  StronglySorted R l → StronglySorted R (filter P l).
Proof.
  induction 1 as [|x l Hl IH Hx]; [constructor|].
  rewrite filter_cons. case_decide; [|done].
  constructor; [done|].
  apply Forall_forall. intros y [_ Hy]%list_elem_of_filter.
  by eapply Forall_forall in Hx.
Qed.
End sorting_facts.

Section ring_invariant.
Import hash_ring.

Lemma new_inv R : ring_inv (new R).
Proof.
  split; simpl.
  - constructor.
  - intros h n. split.
    + by intros ?%elem_of_nil.
    + intros (pts & Hpts & _). by rewrite lookup_empty in Hpts.
  - intros n pts. by rewrite lookup_empty.
Qed.

Lemma add_node_factor r n : _replication_factor (add_node r n) = _replication_factor r.
Proof. unfold add_node. by destruct (_nodes r !! n). Qed.

Lemma remove_node_factor r n :
  _replication_factor (remove_node r n) = _replication_factor r.
Proof. unfold remove_node. by destruct (_nodes r !! n). Qed.

Lemma add_node_inv r n : ring_inv r → ring_inv (add_node r n).
Proof.
  intros [Hs Hm Hp]. unfold add_node.
  destruct (_nodes r !! n) as [pts|] eqn:Hn; [by split|].
  split; simpl.
  - apply sort_by_key_sorted.
  - intros h m. rewrite elem_of_sort_by_key, elem_of_app, list_elem_of_fmap, Hm.
    split.
    + intros [(pts & Hpts & Hh)|(h' & [= -> ->] & Hh)].
      * exists pts. split; [|done].
        rewrite lookup_insert_ne; [done|]. intros ->. congruence.
      * eexists. by rewrite lookup_insert_eq.
    + intros (pts & Hpts & Hh).
      destruct (decide (n = m)) as [->|Hne].
      * rewrite lookup_insert_eq in Hpts. injection Hpts as <-.
        right. by exists h.
      * rewrite lookup_insert_ne in Hpts by done. left. by exists pts.
  - intros m pts.
    destruct (decide (n = m)) as [->|Hne].
    + rewrite lookup_insert_eq. by intros [= <-].
    + rewrite lookup_insert_ne by done. apply Hp.
Qed.

Lemma remove_node_inv r n : ring_inv r → ring_inv (remove_node r n).
Proof.
  intros [Hs Hm Hp]. unfold remove_node.
  destruct (_nodes r !! n) as [points|] eqn:Hn; [|by split].
  split; simpl.
  - by apply StronglySorted_filter_keep.
  - intros h m. rewrite list_elem_of_filter, Hm. simpl. split.
    + intros (Hnot & pts & Hpts & Hh).
      exists pts. split; [|done].
      rewrite lookup_delete_ne; [done|].
      intros ->. apply Hnot. split; [done|]. congruence.
    + intros (pts & Hpts & Hh).
      destruct (decide (n = m)) as [->|Hne].
      * by rewrite lookup_delete_eq in Hpts.
      * rewrite lookup_delete_ne in Hpts by done.
        split; [|by exists pts]. intros [? _]. congruence.
  - intros m pts.
    destruct (decide (n = m)) as [->|Hne].
    + by rewrite lookup_delete_eq.
    + rewrite lookup_delete_ne by done. apply Hp.
Qed.

Lemma apply_op_inv r o : ring_inv r → ring_inv (apply_op r o).
Proof. destruct o; simpl; [apply add_node_inv|apply remove_node_inv]. Qed.

Lemma foldl_apply_op_inv ops r : ring_inv r → ring_inv (foldl apply_op r ops).
Proof.
  revert r. induction ops as [|o ops IH]; intros r Hr; simpl; [done|].
  by apply IH, apply_op_inv.
Qed.

Lemma run_inv R ops : ring_inv (run R ops).
Proof. apply foldl_apply_op_inv, new_inv. Qed.

Lemma foldl_apply_factor ops r :
  _replication_factor (foldl apply_op r ops) = _replication_factor r.
Proof.
  revert r. induction ops as [|o ops IH]; intros r; simpl; [done|].
  rewrite IH. destruct o; simpl; [apply add_node_factor|apply remove_node_factor].
Qed.

Lemma run_factor R ops : _replication_factor (run R ops) = R.
Proof. apply foldl_apply_factor. Qed.
End ring_invariant.

Section walk_facts.
Import hash_ring.
Local Open Scope nat_scope.
Local Arguments collect : simpl never.

Lemma collect_cons acc x l :
  collect acc (x :: l) = collect (if bool_decide (x ∈ acc) then acc else acc ++ [x]) l.
Proof. done. Qed.

Lemma collect_prefix l acc : acc `prefix_of` collect acc l.
Proof.
  revert acc. induction l as [|x l IH]; intros acc; [done|].
  rewrite collect_cons. case_bool_decide; [apply IH|].
  etrans; [|apply IH]. by apply prefix_app_r.
Qed.

Lemma collect_NoDup l acc : NoDup acc → NoDup (collect acc l).
Proof.
  revert acc. induction l as [|x l IH]; intros acc Hacc; [done|].
  rewrite collect_cons. case_bool_decide; [by apply IH|].
  apply IH. apply NoDup_app. split_and!; [done| |apply NoDup_singleton].
  intros y Hy ->%list_elem_of_singleton. done.
Qed.

Lemma elem_of_collect l acc x : x ∈ collect acc l ↔ x ∈ acc ∨ x ∈ l.
Proof.
  revert acc. induction l as [|y l IH]; intros acc.
  - simpl. rewrite elem_of_nil. naive_solver.
  - rewrite collect_cons, IH, elem_of_cons. case_bool_decide.
    + naive_solver.
    + rewrite elem_of_app, list_elem_of_singleton. naive_solver.
Qed.

Lemma first_seen_NoDup l : NoDup (first_seen l).
Proof. apply collect_NoDup, NoDup_nil_2. Qed.

Lemma elem_of_first_seen l x : x ∈ first_seen l ↔ x ∈ l.
Proof. unfold first_seen. rewrite elem_of_collect, elem_of_nil. naive_solver. Qed.

Lemma length_first_seen l : length (first_seen l) = size (list_to_set l : gset string).
Proof.
  rewrite <-(size_list_to_set (C:=gset string)) by apply first_seen_NoDup.
  f_equal. apply set_eq. intros x.
  by rewrite !elem_of_list_to_set, elem_of_first_seen.
Qed.

Lemma lookup_mod_length {A} (ring : list A) i :
  ring ≠ [] → is_Some (ring !! (i mod length ring)).
Proof.
  intros Hne. apply lookup_lt_is_Some.
  apply Nat.mod_upper_bound. by destruct ring.
Qed.

(** The loop, as a function of the entries it meets. *)
Lemma walk_collect fuel ring target i selected seen :
  ring ≠ [] →
  (∀ x, x ∈ seen ↔ x ∈ selected) →
  length selected ≤ Z.to_nat target →
  walk fuel ring target i selected seen =
    let full := collect selected (visited ring i fuel) in
    if bool_decide (Z.to_nat target ≤ length full)
    then Some (take (Z.to_nat target) full) else None.
Proof.
  intros Hne. revert i selected seen.
  induction fuel as [|fuel IH]; intros i selected seen Hseen Hlen.
  - cbn [walk visited]. change (collect selected []) with selected. cbv zeta.
    case_bool_decide; case_bool_decide; try lia; [done|].
    by rewrite take_ge by lia.
  - cbn [walk visited]. case_bool_decide as Hc.
    + destruct (lookup_mod_length ring i Hne) as [e ->].
      simpl. rewrite collect_cons.
      assert (bool_decide (e.2 ∈ seen) = bool_decide (e.2 ∈ selected)) as ->
        by (apply bool_decide_ext, Hseen).
      case_bool_decide as Hin.
      * by apply IH.
      * apply IH.
        -- intros x. rewrite elem_of_union, elem_of_singleton, elem_of_app,
             list_elem_of_singleton, Hseen. naive_solver.
        -- rewrite length_app. simpl. lia.
    + destruct (collect_prefix (visited ring i (S fuel)) selected) as [k Hk].
      cbn [visited] in Hk. simpl. rewrite Hk.
      rewrite bool_decide_eq_true_2 by (rewrite length_app; lia).
      by rewrite take_app_length' by lia.
Qed.

Lemma visited_lookup ring k i j :
  ring ≠ [] → j < k →
  visited ring i k !! j = snd <$> ring !! ((i + j) mod length ring).
Proof.
  intros Hne. revert i j. induction k as [|k IH]; intros i j Hj; [lia|].
  simpl. destruct (lookup_mod_length ring i Hne) as [e He]. rewrite He.
  destruct j as [|j]; simpl.
  - by rewrite Nat.add_0_r, He.
  - rewrite IH by lia. by rewrite Nat.add_succ_r.
Qed.

Lemma length_visited ring k i : ring ≠ [] → length (visited ring i k) = k.
Proof.
  intros Hne. revert i. induction k as [|k IH]; intros i; [done|].
  simpl. destruct (lookup_mod_length ring i Hne) as [e ->].
  simpl. by rewrite IH.
Qed.

(** One turn of the ring from position [i] meets the ring rotated by [i]. *)
Lemma visited_rotate ring i :
  ring ≠ [] → visited ring i (length ring) = (rotate i ring).*2.
Proof.
  intros Hne. apply list_eq_same_length with (length ring).
  - by rewrite length_fmap, length_rotate.
  - by apply length_visited.
  - intros j x y Hj Hx Hy.
    rewrite visited_lookup in Hx by done.
    rewrite list_lookup_fmap, lookup_rotate_r in Hy by done.
    unfold rotate_nat_add in Hy.
    rewrite <-Nat2Z.inj_add, <-Nat2Z.inj_mod, Nat2Z.id in Hy. congruence.
Qed.

Lemma walk_fuel_mono fuel fuel' ring target i selected seen l :
  fuel ≤ fuel' →
  walk fuel ring target i selected seen = Some l →
  walk fuel' ring target i selected seen = Some l.
Proof.
  revert fuel' i selected seen.
  induction fuel as [|fuel IH]; intros fuel' i selected seen Hle.
  - destruct fuel'; simpl; case_bool_decide; done.
  - destruct fuel' as [|fuel']; [lia|].
    cbn [walk]. case_bool_decide; [|done].
    destruct (ring !! (i mod length ring)) as [e|]; [|done]. simpl.
    case_bool_decide; apply IH; lia.
Qed.
End walk_facts.

Section bisect_facts.
Import Py.
Local Open Scope nat_scope.
Local Arguments Nat.div : simpl never.

Lemma half_bounds lo hi : lo < hi → lo ≤ (lo + hi) / 2 < hi.
Proof.
  intros ?. pose proof (Nat.div_mod (lo + hi) 2).
  pose proof (Nat.mod_upper_bound (lo + hi) 2). lia.
Qed.

(** The binary search always returns, with a position of the list. *)
Lemma bisect_loop_total fuel a x lo hi :
  lo ≤ hi ≤ length a → hi - lo < fuel →
  ∃ idx, bisect_loop fuel a x lo hi = Some idx ∧ lo ≤ idx ≤ hi.
Proof.
  revert lo hi. induction fuel as [|fuel IH]; intros lo hi Hb Hf; [lia|].
  cbn [bisect_loop]. case_bool_decide as Hlt; [|exists lo; split; [done|lia]].
  pose proof (half_bounds lo hi Hlt) as Hmid.
  destruct (lookup_lt_is_Some_2 a ((lo + hi) / 2)) as [e ->]; [lia|]. simpl.
  destruct (tuple_lt x e).
  - destruct (IH lo ((lo + hi) / 2)) as (idx & Hidx & ?); [lia..|].
    exists idx. split; [exact Hidx|lia].
  - destruct (IH (S ((lo + hi) / 2)) hi) as (idx & Hidx & ?); [lia..|].
    exists idx. split; [exact Hidx|lia].
Qed.

Lemma bisect_right_total a x :
  ∃ idx, bisect_right a x = Some idx ∧ idx ≤ length a.
Proof.
  destruct (bisect_loop_total (S (length a)) a x 0 (length a)) as (idx & ? & ?);
    [lia..|].
  exists idx. split; [done|lia].
Qed.

(** On a list that [x < _] splits at position [k], the search finds [k]. *)
Lemma bisect_loop_partition fuel a x k lo hi :
  (∀ j e, a !! j = Some e → tuple_lt x e = true ↔ k ≤ j) →
  lo ≤ k ≤ hi → hi ≤ length a → hi - lo < fuel →
  bisect_loop fuel a x lo hi = Some k.
Proof.
  intros Hk. revert lo hi.
  induction fuel as [|fuel IH]; intros lo hi Hb Hhi Hf; [lia|].
  cbn [bisect_loop]. case_bool_decide as Hlt; [|f_equal; lia].
  pose proof (half_bounds lo hi Hlt) as Hmid.
  destruct (lookup_lt_is_Some_2 a ((lo + hi) / 2)) as [e He]; [lia|].
  rewrite He. simpl. specialize (Hk _ _ He).
  destruct (tuple_lt x e).
  - apply IH; [|lia..]. split; [lia|]. by apply Hk.
  - apply IH; [|lia..]. split; [|lia].
    destruct (decide (k ≤ (lo + hi) / 2)) as [Hle|]; [|lia].
    by apply Hk in Hle.
Qed.

Lemma str_lt_empty s : str_lt EmptyString s = bool_decide (s ≠ EmptyString).
Proof. by destruct s. Qed.

Lemma first_index_le p (l : list (Z * string)) : hash_ring.first_index p l ≤ length l.
Proof. induction l as [|e l IH]; simpl; [done|]. destruct (p e); lia. Qed.

Lemma lower_bound_sorted ring h j e :
  StronglySorted hash_le ring → ring !! j = Some e →
  (h ≤ e.1)%Z ↔ hash_ring.lower_bound ring h ≤ j.
Proof.
  unfold hash_ring.lower_bound. intros Hs. revert j.
  induction Hs as [|y l Hl IH Hy]; intros j Hj; [done|].
  simpl. case_bool_decide as Hh.
  - split; [lia|]. intros _.
    destruct j as [|j]; simplify_eq/=; [done|].
    apply list_elem_of_lookup_2 in Hj.
    eapply Forall_forall in Hy; [|done]. unfold hash_le in Hy. lia.
  - destruct j as [|j]; simplify_eq/=; [split; [done|lia]|].
    rewrite IH by done. lia.
Qed.

(** With no entry [(h, "")] in it, a list sorted by hash is split by
    [(h, "") < _] at its first entry whose hash is at least [h]. *)
Lemma bisect_right_lower_bound ring h :
  StronglySorted hash_le ring →
  (∀ e, e ∈ ring → e.1 = h → e.2 ≠ EmptyString) →
  bisect_right ring (h, EmptyString) = Some (hash_ring.lower_bound ring h).
Proof.
  intros Hs Hne. apply bisect_loop_partition.
  - intros j e He. rewrite <-lower_bound_sorted by done.
    unfold tuple_lt. simpl. destruct (Z.eqb_spec h e.1) as [Heq|Hneq].
    + change (str_lt EmptyString e.2 = true ↔ (h ≤ e.1)%Z).
      rewrite str_lt_empty, bool_decide_eq_true.
      split; [lia|]. intros _. eapply Hne; [|done].
      by eapply list_elem_of_lookup_2.
    + rewrite Z.ltb_lt. lia.
  - split; [lia|]. apply first_index_le.
  - done.
  - lia.
Qed.
End bisect_facts.

Section ring_lookup.
Import hash_ring.

Lemma points_of_nonempty R n : 1 ≤ R → points_of R n ≠ [].
Proof.
  intros HR. unfold points_of, Py.range. by rewrite seqZ_cons by lia.
Qed.

Lemma points_of_empty R n : R ≤ 0 → points_of R n = [].
Proof. intros HR. unfold points_of, Py.range. by rewrite seqZ_nil by lia. Qed.

(** Every registered node has an entry in the ring when the replication
    factor is at least 1. *)
Lemma registered_in_ring r n :
  ring_inv r → 1 ≤ _replication_factor r → is_Some (_nodes r !! n) →
  ∃ h, (h, n) ∈ _ring r.
Proof.
  intros [_ Hm Hp] HR [pts Hpts].
  pose proof (points_of_nonempty _ n HR) as Hne.
  rewrite <-(Hp _ _ Hpts) in Hne.
  destruct pts as [|h pts]; [done|].
  exists h. apply Hm. exists (h :: pts). split; [done|]. apply list_elem_of_here.
Qed.

Lemma ring_ids r :
  ring_inv r → 1 ≤ _replication_factor r →
  list_to_set (_ring r).*2 =@{gset string} dom (_nodes r).
Proof.
  intros Hinv HR. apply set_eq. intros n.
  rewrite elem_of_list_to_set, list_elem_of_fmap, elem_of_dom. split.
  - intros ([h m] & -> & Hin). apply (inv_member r Hinv) in Hin as (pts & ? & _).
    by exists pts.
  - intros Hn. destruct (registered_in_ring r n Hinv HR Hn) as [h Hh].
    by exists (h, n).
Qed.

Lemma ring_nonempty_factor r :
  ring_inv r → _ring r ≠ [] → 1 ≤ _replication_factor r.
Proof.
  intros [_ Hm Hp] Hne.
  destruct (Z_lt_le_dec (_replication_factor r) 1) as [Hlt|]; [|done].
  destruct (_ring r) as [|[h n] l] eqn:Hr; [done|].
  destruct (proj1 (Hm h n)) as (pts & Hpts & Hh); [apply list_elem_of_here|].
  rewrite (Hp _ _ Hpts), points_of_empty in Hh by lia.
  by apply elem_of_nil in Hh.
Qed.

Lemma foldl_apply_dom ops r :
  dom (_nodes (foldl apply_op r ops)) =
  foldl (λ N o, match o with Add n => {[ n ]} ∪ N | Remove n => N ∖ {[ n ]} end)
        (dom (_nodes r)) ops.
Proof.
  revert r. induction ops as [|o ops IH]; intros r; [done|].
  simpl. rewrite IH. f_equal. destruct o as [n|n]; simpl.
  - unfold add_node. destruct (_nodes r !! n) eqn:Hn; simpl.
    + apply (elem_of_dom_2 (D:=gset string)) in Hn. set_solver.
    + by rewrite dom_insert_L.
  - unfold remove_node. destruct (_nodes r !! n) eqn:Hn; simpl.
    + by rewrite dom_delete_L.
    + apply (not_elem_of_dom (D:=gset string)) in Hn. set_solver.
Qed.

Lemma dom_run R ops : dom (_nodes (run R ops)) = node_set ops.
Proof. unfold run, node_set. rewrite foldl_apply_dom. simpl. by rewrite dom_empty_L. Qed.

Lemma size_run R ops : size (_nodes (run R ops)) = size (node_set ops).
Proof. by rewrite <-(dom_run R), size_dom. Qed.

Lemma get_nodes_for_key_empty fuel r key count :
  _ring r = [] → get_nodes_for_key fuel r key count = Some [].
Proof. unfold get_nodes_for_key. by intros ->. Qed.

Lemma get_nodes_for_key_nonempty fuel r key count :
  _ring r ≠ [] →
  get_nodes_for_key fuel r key count =
    idx ← Py.bisect_right (_ring r) (_hash_key key, EmptyString);
    walk fuel (_ring r) (Z.min count (Z.of_nat (size (_nodes r)))) idx [] ∅.
Proof. unfold get_nodes_for_key. by destruct (_ring r). Qed.

(** From the position the binary search gives, the loop returns within
    one turn of the ring, with the identifiers in the order first seen. *)
Lemma get_nodes_for_key_walk_order fuel r key count idx :
  ring_inv r → _ring r ≠ [] →
  Py.bisect_right (_ring r) (_hash_key key, EmptyString) = Some idx →
  (length (_ring r) ≤ fuel)%nat →
  get_nodes_for_key fuel r key count =
    Some (walk_order (_ring r) idx count (size (_nodes r))).
Proof.
  intros Hinv Hne Hidx Hfuel.
  rewrite get_nodes_for_key_nonempty, Hidx by done. simpl.
  apply walk_fuel_mono with (length (_ring r)); [done|].
  rewrite walk_collect; [|done|set_solver|simpl; lia].
  cbv zeta. rewrite visited_rotate by done.
  fold (first_seen (rotate idx (_ring r)).*2).
  rewrite bool_decide_eq_true_2; [done|].
  rewrite length_first_seen.
  replace (list_to_set (rotate idx (_ring r)).*2) with (dom (_nodes r) : gset string).
  - rewrite size_dom. lia.
  - rewrite <-ring_ids by eauto using ring_nonempty_factor.
    apply set_eq. intros n.
    rewrite !elem_of_list_to_set, !list_elem_of_fmap.
    by setoid_rewrite elem_of_rotate.
Qed.

Lemma walk_order_length ring idx count n :
  length (first_seen (rotate idx ring).*2) = n →
  length (walk_order ring idx count n) = Z.to_nat (Z.min count (Z.of_nat n)).
Proof. intros Hn. unfold walk_order. rewrite length_take, Hn. lia. Qed.

Lemma walk_order_NoDup ring idx count n : NoDup (walk_order ring idx count n).
Proof.
  unfold walk_order.
  pose proof (first_seen_NoDup (rotate idx ring).*2) as Hnd.
  rewrite <-(take_drop (Z.to_nat (Z.min count (Z.of_nat n)))) in Hnd.
  by apply NoDup_app in Hnd as [? _].
Qed.

Lemma elem_of_walk_order ring idx count n x :
  x ∈ walk_order ring idx count n → x ∈ ring.*2.
Proof.
  unfold walk_order. intros Hx%subseteq_take.
  rewrite elem_of_first_seen in Hx.
  apply list_elem_of_fmap in Hx as (e & -> & He%elem_of_rotate).
  by apply list_elem_of_fmap_2.
Qed.
End ring_lookup.

Section ring_theorems.
Import hash_ring.

Lemma first_seen_rotate_length r idx :
  ring_inv r → 1 ≤ _replication_factor r →
  length (first_seen (rotate idx (_ring r)).*2) = size (_nodes r).
Proof.
  intros Hinv HR. rewrite length_first_seen, <-size_dom, <-ring_ids by done.
  f_equal. apply set_eq. intros n.
  rewrite !elem_of_list_to_set, !list_elem_of_fmap.
  by setoid_rewrite elem_of_rotate.
Qed.

Lemma lower_bound_upper_bound ring h :
  (∀ e, e ∈ ring → e.1 ≠ h) → lower_bound ring h = upper_bound ring h.
Proof.
  unfold lower_bound, upper_bound.
  induction ring as [|e ring IH]; intros Hne; [done|]. simpl.
  assert (e.1 ≠ h) by (apply Hne, list_elem_of_here).
  rewrite IH by (intros ??; by apply Hne, list_elem_of_further).
  repeat case_bool_decide; (done || lia).
Qed.

(** C8. Ring sortedness invariant: after every sequence of [add_node] and
    [remove_node] calls on a fresh ring, of any replication factor, the
    list of (hash, node_id) points is sorted by hash value: every entry's
    hash is at most the hash of every later entry. *)
Theorem ring_sorted_by_hash R ops : StronglySorted hash_le (_ring (run R ops)).
Proof. apply (inv_sorted _ (run_inv R ops)). Qed.

(** C9. Termination of the ring walk: in every state reachable by
    [add_node]/[remove_node] with a replication factor of at least 1, every
    registered node has an entry in the ring, the number of distinct node
    identifiers on the ring is the size of the registry, and the loop of
    [get_nodes_for_key] returns for every key and count once it is given
    as many steps as the ring has entries. *)
Theorem get_nodes_for_key_terminates R ops key count :
  1 ≤ R →
  (∀ n, is_Some (_nodes (run R ops) !! n) → ∃ h, (h, n) ∈ _ring (run R ops)) ∧
  size (list_to_set (_ring (run R ops)).*2 : gset string) = size (_nodes (run R ops)) ∧
  (∀ fuel, (length (_ring (run R ops)) ≤ fuel)%nat →
     is_Some (get_nodes_for_key fuel (run R ops) key count)).
Proof.
  intros HR. pose proof (run_inv R ops) as Hinv.
  assert (1 ≤ _replication_factor (run R ops)) as HR' by by rewrite run_factor.
  split_and!.
  - intros n Hn. by apply registered_in_ring.
  - by rewrite ring_ids, size_dom.
  - intros fuel Hfuel.
    destruct (decide (_ring (run R ops) = [])) as [He|Hne].
    + by rewrite get_nodes_for_key_empty.
    + destruct (Py.bisect_right (_ring (run R ops)) (_hash_key key, EmptyString))
        as [idx|] eqn:Hidx.
      * by erewrite get_nodes_for_key_walk_order.
      * destruct (bisect_right_total (_ring (run R ops)) (_hash_key key, EmptyString))
          as (idx & ? & _). congruence.
Qed.

(** C2, amended. Ring membership: for every ring built by a sequence of
    [add_node]/[remove_node] calls with a replication factor of at least 1,
    yielding node set N, every key and every count >= 0,
    [get_nodes_for_key] returns exactly min(count, |N|) distinct node
    identifiers, all drawn from N, and the empty list when the ring is
    empty. *)
Theorem get_nodes_for_key_membership R ops key count :
  1 ≤ R → 0 ≤ count →
  ∃ l,
    (∀ fuel, (length (_ring (run R ops)) ≤ fuel)%nat →
       get_nodes_for_key fuel (run R ops) key count = Some l) ∧
    Z.of_nat (length l) = Z.min count (Z.of_nat (size (node_set ops))) ∧
    NoDup l ∧
    (∀ n, n ∈ l → n ∈ node_set ops) ∧
    (_ring (run R ops) = [] → l = []).
Proof.
  intros HR Hcount. pose proof (run_inv R ops) as Hinv.
  assert (1 ≤ _replication_factor (run R ops)) as HR' by by rewrite run_factor.
  rewrite <-(size_run R), <-(dom_run R).
  destruct (decide (_ring (run R ops) = [])) as [He|Hne].
  - exists []. split_and!; [|simpl|constructor|by intros ? ?%elem_of_nil|done].
    + intros fuel _. by apply get_nodes_for_key_empty.
    + pose proof (ring_ids _ Hinv HR') as Hids. rewrite He in Hids.
      rewrite <-size_dom, <-Hids.
      change (list_to_set [].*2) with (∅ : gset string).
      rewrite size_empty. lia.
  - destruct (bisect_right_total (_ring (run R ops)) (_hash_key key, EmptyString))
      as (idx & Hidx & _).
    exists (walk_order (_ring (run R ops)) idx count (size (_nodes (run R ops)))).
    split_and!.
    + intros fuel Hfuel. by apply get_nodes_for_key_walk_order.
    + rewrite walk_order_length by by apply first_seen_rotate_length. lia.
    + apply walk_order_NoDup.
    + intros n Hn%elem_of_walk_order. rewrite <-ring_ids by done.
      by apply elem_of_list_to_set.
    + done.
Qed.

(** C3, amended. Lookup start position: for every non-empty ring and every
    key such that no ring entry with the key's hash carries the empty node
    identifier, [get_nodes_for_key] begins its walk where [bisect_right]
    puts the pair (hash(key), ""): at the first ring entry whose hash is
    greater than or equal to hash(key), wrapping to the start of the sorted
    list when there is none, and collects node identifiers in walk order,
    each the first time it is seen. When no entry's hash equals hash(key),
    that entry is the first one whose hash is strictly greater. *)
Theorem get_nodes_for_key_start R ops key count :
  _ring (run R ops) ≠ [] →
  (∀ e, e ∈ _ring (run R ops) → e.1 = _hash_key key → e.2 ≠ EmptyString) →
  Py.bisect_right (_ring (run R ops)) (_hash_key key, EmptyString)
    = Some (lower_bound (_ring (run R ops)) (_hash_key key)) ∧
  (∀ fuel, (length (_ring (run R ops)) ≤ fuel)%nat →
     get_nodes_for_key fuel (run R ops) key count
     = Some (walk_order (_ring (run R ops))
               (lower_bound (_ring (run R ops)) (_hash_key key))
               count (size (_nodes (run R ops))))) ∧
  ((∀ e, e ∈ _ring (run R ops) → e.1 ≠ _hash_key key) →
     lower_bound (_ring (run R ops)) (_hash_key key)
     = upper_bound (_ring (run R ops)) (_hash_key key)).
Proof.
  intros Hne Hid. pose proof (run_inv R ops) as Hinv.
  assert (Py.bisect_right (_ring (run R ops)) (_hash_key key, EmptyString)
          = Some (lower_bound (_ring (run R ops)) (_hash_key key))) as Hidx.
  { apply bisect_right_lower_bound; [apply Hinv|done]. }
  split_and!; [done| |apply lower_bound_upper_bound].
  intros fuel Hfuel. by apply get_nodes_for_key_walk_order.
Qed.
End ring_theorems.

Section ring_examples.
Import hash_ring.

Lemma get_nodes_for_key_terminates_witness :
  1 ≤ 2 ∧ is_Some (get_nodes_for_key 4 (run 2 [Add "a"; Add "b"]) "file-1" 2).
Proof.
  split; [lia|].
  destruct (get_nodes_for_key_terminates 2 [Add "a"; Add "b"] "file-1" 2)
    as (_ & _ & Hret); [lia|].
  apply Hret. vm_compute. lia.
Defined.

(** C2 fails on a ring whose replication factor is 0: the node is
    registered, no point is put on the ring, and the lookup returns the
    empty list although min(count, |N|) = 1. *)
Lemma get_nodes_for_key_factor_zero :
  node_set [Add "a"] = {[ "a" ]} ∧
  (∀ fuel, get_nodes_for_key fuel (run 0 [Add "a"]) "k" 1 = Some []) ∧
  Z.min 1 (Z.of_nat (size (node_set [Add "a"]))) = 1.
Proof.
  assert (node_set [Add "a"] = {[ "a" ]}) as Hset.
  { unfold node_set. simpl. set_solver. }
  split_and!; [done| |].
  - intros fuel. by apply get_nodes_for_key_empty.
  - by rewrite Hset, size_singleton.
Qed.

Lemma get_nodes_for_key_membership_witness :
  ∃ l, get_nodes_for_key 4 (run 2 [Add "a"; Add "b"; Add "c"; Remove "b"]) "file-1" 5 = Some l ∧
       Z.of_nat (length l)
       = Z.min 5 (Z.of_nat (size (node_set [Add "a"; Add "b"; Add "c"; Remove "b"]))).
Proof.
  destruct (get_nodes_for_key_membership 2 [Add "a"; Add "b"; Add "c"; Remove "b"]
              "file-1" 5) as (l & Hl & Hlen & _); [lia..|].
  exists l. split; [|done]. apply Hl. vm_compute. lia.
Defined.

(** C3 fails when the key hashes onto a ring point: with nodes "a" and "b"
    at replication factor 1 the ring is [(hash "a:0", "a"); (hash "b:0", "b")];
    for the key "a:0" the walk starts at position 0, on the entry whose
    hash equals the key's, and returns ["a"], while the first entry with a
    strictly greater hash is at position 1 and a walk from there gives ["b"]. *)
Lemma get_nodes_for_key_starts_on_equal_hash :
  _ring (run 1 [Add "a"; Add "b"]) = [(_hash_key "a:0", "a"); (_hash_key "b:0", "b")] ∧
  Py.bisect_right (_ring (run 1 [Add "a"; Add "b"])) (_hash_key "a:0", EmptyString) = Some 0%nat ∧
  upper_bound (_ring (run 1 [Add "a"; Add "b"])) (_hash_key "a:0") = 1%nat ∧
  get_nodes_for_key 2 (run 1 [Add "a"; Add "b"]) "a:0" 1 = Some ["a"] ∧
  walk_order (_ring (run 1 [Add "a"; Add "b"]))
    (upper_bound (_ring (run 1 [Add "a"; Add "b"])) (_hash_key "a:0")) 1 2 = ["b"].
Proof. vm_compute. done. Qed.

Lemma get_nodes_for_key_start_witness :
  get_nodes_for_key 2 (run 1 [Add "a"; Add "b"]) "a:0" 1
  = Some (walk_order (_ring (run 1 [Add "a"; Add "b"]))
            (lower_bound (_ring (run 1 [Add "a"; Add "b"])) (_hash_key "a:0")) 1
            (size (_nodes (run 1 [Add "a"; Add "b"])))).
Proof.
  destruct (get_nodes_for_key_start 1 [Add "a"; Add "b"] "a:0" 1) as (_ & Hget & _).
  - vm_compute. discriminate.
  - apply (proj1 (Forall_forall (λ e : Z * string, e.1 = _hash_key "a:0" → e.2 ≠ EmptyString) _)).
    vm_compute. repeat constructor; discriminate.
  - apply Hget. vm_compute. lia.
Defined.
End ring_examples.

Section name_facts.
Import node_server.

Lemma string_length_app s t :
  String.length (s +:+ t) = (String.length s + String.length t)%nat.
Proof. induction s as [|a s IH]; simpl; [done|]. by rewrite IH. Qed.

Lemma contains_app c s t :
  Py.contains c (s +:+ t) = Py.contains c s || Py.contains c t.
Proof. induction s as [|a s IH]; simpl; [done|]. by destruct (Ascii.eqb a c). Qed.

Lemma contains_replace_char s :
  Py.contains "000" (Py.replace_char "/" "_" s) = Py.contains "000" s.
Proof.
  induction s as [|a s IH]; [done|]. simpl. rewrite IH.
  destruct (Ascii.eqb a "/") eqn:Ha; [|done].
  by apply Ascii.eqb_eq in Ha as ->.
Qed.

Lemma length_replace_char old new s :
  String.length (Py.replace_char old new s) = String.length s.
Proof. induction s as [|a s IH]; simpl; [done|]. by rewrite IH. Qed.

Lemma contains_pretty_N_go x s :
  Py.contains "000" (pretty_N_go x s) = Py.contains "000" s.
Proof.
  revert s. induction (N.lt_wf_0 x) as [x _ IH]; intros s.
  assert (x = 0 ∨ 0 < x)%N as [->|Hpos] by lia; [by rewrite pretty_N_go_0|].
  rewrite pretty_N_go_step by done. rewrite IH by (by apply N.div_lt).
  simpl. unfold pretty_N_char. by repeat case_match.
Qed.

(** The decimal text of an integer has no NUL character. *)
Lemma contains_str_of_int i : Py.contains "000" (Py.str_of_int i) = false.
Proof.
  unfold Py.str_of_int, pretty, pretty_Z. destruct i as [|x|x]; [done|..].
  - unfold pretty, pretty_positive, pretty, pretty_N.
    case_decide; [done|]. by rewrite contains_pretty_N_go.
  - rewrite contains_app. unfold pretty, pretty_positive, pretty, pretty_N.
    case_decide; [done|]. by rewrite contains_pretty_N_go.
Qed.

Lemma length_pretty_N_go x s (k : nat) :
  (x < 10 ^ N.of_nat k)%N →
  (String.length (pretty_N_go x s) ≤ String.length s + k)%nat.
Proof.
  revert x s. induction k as [|k IH]; intros x s Hx.
  - assert (x = 0)%N as -> by (simpl in Hx; lia). rewrite pretty_N_go_0. lia.
  - assert (x = 0 ∨ 0 < x)%N as [->|Hpos] by lia; [rewrite pretty_N_go_0; lia|].
    rewrite pretty_N_go_step by done.
    etrans; [apply IH|simpl; lia].
    rewrite Nat2N.inj_succ, N.pow_succ_r' in Hx.
    apply N.Div0.div_lt_upper_bound. lia.
Qed.

(** The decimal text of an integer of 64 bits, signed or not, has at most
    20 characters. *)
Lemma length_str_of_int i :
  - 2 ^ 63 ≤ i < 2 ^ 64 → (String.length (Py.str_of_int i) ≤ 20)%nat.
Proof.
  intros Hi. unfold Py.str_of_int, pretty, pretty_Z.
  destruct i as [|x|x]; [simpl; lia|..].
  - unfold pretty, pretty_positive, pretty, pretty_N. case_decide; [simpl; lia|].
    apply (length_pretty_N_go _ "" 20).
    change (10 ^ N.of_nat 20)%N with 100000000000000000000%N.
    change (2 ^ 64) with 18446744073709551616 in Hi. lia.
  - rewrite string_length_app.
    unfold pretty, pretty_positive, pretty, pretty_N. case_decide; [simpl; lia|].
    pose proof (length_pretty_N_go (N.pos x) "" 19) as Hlen.
    change (10 ^ N.of_nat 19)%N with 10000000000000000000%N in Hlen.
    change (- 2 ^ 63) with (- 9223372036854775808) in Hi.
    simpl in *. lia.
Qed.

(** For the chunk id of a request, [name_bytes] is the length of the name. *)
Lemma name_bytes_length filename chunk_id :
  - 2 ^ 63 ≤ chunk_id < 2 ^ 64 →
  name_bytes filename chunk_id = String.length (_chunk_path filename chunk_id).
Proof.
  intros Hi. unfold name_bytes, _chunk_path.
  rewrite !string_length_app, Nat.min_l by by apply length_str_of_int.
  simpl. lia.
Qed.

(** The file system takes the name of every chunk of a file whose name has
    no NUL character and at most 228 bytes. *)
Lemma name_error_short filename chunk_id :
  Py.contains "000" filename = false → (String.length filename ≤ 228)%nat →
  name_error filename chunk_id = None.
Proof.
  intros Hnul Hlen. unfold name_error, _chunk_path.
  rewrite !contains_app, contains_replace_char, contains_str_of_int, Hnul.
  simpl. rewrite bool_decide_eq_false_2; [done|].
  unfold NAME_MAX, name_bytes. rewrite length_replace_char. lia.
Qed.
End name_facts.

Section node_theorems.
Import node_server.

Lemma StoreChunk_ok disk request :
  name_error request.(pb.FileChunk.filename) request.(pb.FileChunk.chunk_id) = None →
  StoreChunk disk request
  = (<[_chunk_path request.(pb.FileChunk.filename) request.(pb.FileChunk.chunk_id)
       := request.(pb.FileChunk.data)]> disk,
     grpc.Reply {| pb.Ack.success := true; pb.Ack.message := "stored" |}).
Proof. intros Hok. unfold StoreChunk. by rewrite Hok. Qed.

Lemma StoreChunk_other disk request p :
  _chunk_path request.(pb.FileChunk.filename) request.(pb.FileChunk.chunk_id) ≠ p →
  (StoreChunk disk request).1 !! p = disk !! p.
Proof.
  intros Hne. unfold StoreChunk.
  destruct (name_error _ _); [done|]. by apply lookup_insert_ne.
Qed.

Lemma GetChunk_ok disk filename chunk_id :
  name_error filename chunk_id = None →
  GetChunk disk {| pb.ChunkRequest.filename := filename;
                   pb.ChunkRequest.chunk_id := chunk_id |}
  = match disk !! _chunk_path filename chunk_id with
    | None => grpc.Abort grpc.NOT_FOUND "chunk not found"
    | Some data =>
        grpc.Reply {| pb.FileChunk.filename := filename; pb.FileChunk.data := data;
                      pb.FileChunk.chunk_id := chunk_id; pb.FileChunk.total_chunks := 0 |}
    end.
Proof. intros Hok. unfold GetChunk. simpl. by rewrite Hok. Qed.





Lemma chunk_path_replace f g chunk_id :
  Py.replace_char "/" "_" f = Py.replace_char "/" "_" g →
  _chunk_path f chunk_id = _chunk_path g chunk_id.
Proof. unfold _chunk_path. by intros ->. Qed.

(** C10. Chunk path aliasing: the chunk-location function is not injective
    in the filename. The distinct filenames "a/b" and "a_b" have, for every
    chunk id, the same location, so a [StoreChunk] for one overwrites the
    payload stored for the other, and a [GetChunk] for either returns the
    payload written last. *)
Theorem chunk_path_aliasing :
  "a/b" ≠ "a_b" ∧
  (∀ chunk_id, _chunk_path "a/b" chunk_id = _chunk_path "a_b" chunk_id) ∧
  (∀ (disk : storage) chunk_id d1 d2 t1 t2,
     GetChunk
       (StoreChunk
          (StoreChunk disk {| pb.FileChunk.filename := "a/b"; pb.FileChunk.data := d1;
                              pb.FileChunk.chunk_id := chunk_id;
                              pb.FileChunk.total_chunks := t1 |}).1
          {| pb.FileChunk.filename := "a_b"; pb.FileChunk.data := d2;
             pb.FileChunk.chunk_id := chunk_id; pb.FileChunk.total_chunks := t2 |}).1
       {| pb.ChunkRequest.filename := "a/b"; pb.ChunkRequest.chunk_id := chunk_id |}
     = grpc.Reply {| pb.FileChunk.filename := "a/b"; pb.FileChunk.data := d2;
                     pb.FileChunk.chunk_id := chunk_id; pb.FileChunk.total_chunks := 0 |} ∧
     GetChunk
       (StoreChunk
          (StoreChunk disk {| pb.FileChunk.filename := "a_b"; pb.FileChunk.data := d2;
                              pb.FileChunk.chunk_id := chunk_id;
                              pb.FileChunk.total_chunks := t2 |}).1
          {| pb.FileChunk.filename := "a/b"; pb.FileChunk.data := d1;
             pb.FileChunk.chunk_id := chunk_id; pb.FileChunk.total_chunks := t1 |}).1
       {| pb.ChunkRequest.filename := "a_b"; pb.ChunkRequest.chunk_id := chunk_id |}
     = grpc.Reply {| pb.FileChunk.filename := "a_b"; pb.FileChunk.data := d1;
                     pb.FileChunk.chunk_id := chunk_id; pb.FileChunk.total_chunks := 0 |}).
Proof.
  assert (∀ chunk_id, _chunk_path "a/b" chunk_id = _chunk_path "a_b" chunk_id) as Hsame
    by (intros; by apply chunk_path_replace).
  assert (∀ chunk_id, name_error "a/b" chunk_id = None) as Hok1
    by (intros; apply name_error_short; [done|simpl; lia]).
  assert (∀ chunk_id, name_error "a_b" chunk_id = None) as Hok2
    by (intros; apply name_error_short; [done|simpl; lia]).
  split_and!; [done|done|].
  intros disk chunk_id d1 d2 t1 t2.
  rewrite !GetChunk_ok, !StoreChunk_ok by done. cbn [fst pb.FileChunk.filename
    pb.FileChunk.chunk_id pb.FileChunk.data].
  rewrite <-!Hsame. by rewrite !lookup_insert_eq.
Qed.
End node_theorems.

Section heartbeat_theorems.
Import master_server.

(** C5. Heartbeat result: [Heartbeat(node_id)] answers success with message
    "ok" if and only if [node_id] is in the node-address map, and then the
    node's last-heartbeat timestamp is the current time; otherwise it
    answers failure with message "unknown node" and leaves the whole state
    as it was, so no membership entry is created. *)
Theorem heartbeat_result now request w :
  ((Heartbeat now request w).1 = {| pb.Ack.success := true; pb.Ack.message := "ok" |}
   ↔ is_Some (_node_address (coordinator w) !! pb.NodeHeartbeat.node_id request)) ∧
  (is_Some (_node_address (coordinator w) !! pb.NodeHeartbeat.node_id request) →
   _node_last_heartbeat (coordinator (Heartbeat now request w).2)
     !! pb.NodeHeartbeat.node_id request = Some now) ∧
  (_node_address (coordinator w) !! pb.NodeHeartbeat.node_id request = None →
   (Heartbeat now request w).1
     = {| pb.Ack.success := false; pb.Ack.message := "unknown node" |} ∧
   (Heartbeat now request w).2 = w).
Proof.
  unfold Heartbeat.
  destruct (_node_address (coordinator w) !! pb.NodeHeartbeat.node_id request)
    as [address|] eqn:Ha; simpl.
  - split_and!.
    + split; [by eexists|done].
    + intros _. by rewrite lookup_insert_eq.
    + done.
  - split_and!.
    + split; [done|]. by intros [? ?].
    + by intros [? ?].
    + done.
Qed.

(** C6. Heartbeat frame condition: in every coordinator state a
    [Heartbeat(node_id)] call leaves the node-address map, the hash ring,
    the file index, the replication count, the persisted metadata document
    and the storage nodes unchanged, and the last-heartbeat timestamp of
    every other node unchanged, whether the node is known or not. *)
Theorem heartbeat_frame now request w :
  _node_address (coordinator (Heartbeat now request w).2) = _node_address (coordinator w) ∧
  _ring (coordinator (Heartbeat now request w).2) = _ring (coordinator w) ∧
  _file_index (coordinator (Heartbeat now request w).2) = _file_index (coordinator w) ∧
  _replication (coordinator (Heartbeat now request w).2) = _replication (coordinator w) ∧
  metadata_file (Heartbeat now request w).2 = metadata_file w ∧
  cluster (Heartbeat now request w).2 = cluster w ∧
  (∀ n, n ≠ pb.NodeHeartbeat.node_id request →
     _node_last_heartbeat (coordinator (Heartbeat now request w).2) !! n
     = _node_last_heartbeat (coordinator w) !! n).
Proof.
  unfold Heartbeat.
  destruct (_node_address (coordinator w) !! pb.NodeHeartbeat.node_id request);
    simpl; split_and!; try done.
  intros n Hn. by rewrite lookup_insert_ne.
Qed.
End heartbeat_theorems.

Section upload_rejections.
Import master_server.

Lemma get_nodes_for_key_returns fuel r key count :
  ring_inv r → (length (hash_ring._ring r) ≤ fuel)%nat →
  ∃ l, hash_ring.get_nodes_for_key fuel r key count = Some l.
Proof.
  intros Hinv Hfuel.
  destruct (decide (hash_ring._ring r = [])) as [He|Hne].
  - exists []. by apply get_nodes_for_key_empty.
  - destruct (bisect_right_total (hash_ring._ring r) (hash_ring._hash_key key, EmptyString))
      as (idx & Hidx & _).
    eexists. by apply get_nodes_for_key_walk_order.
Qed.

Lemma elem_of_live_nodes c now n :
  n ∈ _live_nodes c now ↔
  ∃ ts, _node_last_heartbeat c !! n = Some ts ∧ within_window now ts = true.
Proof.
  unfold _live_nodes. rewrite list_elem_of_fmap. split.
  - intros ([n' ts] & -> & [Hts Hin%elem_of_map_to_list]%list_elem_of_filter).
    by exists ts.
  - intros (ts & Hn & Hts). exists (n, ts). split; [done|].
    apply list_elem_of_filter. split; [done|]. by apply elem_of_map_to_list.
Qed.

Lemma live_nodes_nil c now :
  (∀ n ts, _node_last_heartbeat c !! n = Some ts → within_window now ts = false) →
  _live_nodes c now = [].
Proof.
  intros Hstale. destruct (_live_nodes c now) as [|n l] eqn:Hl; [done|].
  assert (n ∈ _live_nodes c now) as Hn by (rewrite Hl; apply list_elem_of_here).
  apply elem_of_live_nodes in Hn as (ts & Hts & Hw).
  rewrite (Hstale _ _ Hts) in Hw. discriminate.
Qed.

(** The placement loop stops with the status "no live nodes for chunk" as
    soon as it meets a chunk none of whose candidates is live. *)
Lemma place_rejects fuel c filename live_nodes chunks placements chunk node_ids :
  ring_inv (_ring c) → (length (hash_ring._ring (_ring c)) ≤ fuel)%nat →
  chunk ∈ chunks →
  hash_ring.get_nodes_for_key fuel (_ring c)
    (filename +:+ ":" +:+ Py.str_of_int (pb.FileChunk.chunk_id chunk)) (_replication c)
    = Some node_ids →
  filter (λ n, n ∈ live_nodes) node_ids = [] →
  place fuel c filename live_nodes chunks placements = Some (inl "no live nodes for chunk").
Proof.
  intros Hinv Hfuel Hin Hget Hnone. revert placements.
  induction chunks as [|ch chunks IH]; intros placements; [by apply elem_of_nil in Hin|].
  cbn [place].
  destruct (get_nodes_for_key_returns fuel (_ring c)
              (filename +:+ ":" +:+ Py.str_of_int (pb.FileChunk.chunk_id ch))
              (_replication c) Hinv Hfuel) as [l Hl].
  rewrite Hl. simpl.
  destruct (filter (λ n, n ∈ live_nodes) l) as [|n ns] eqn:Hf; [done|].
  apply IH. apply elem_of_cons in Hin as [->|Hin]; [|done].
  congruence.
Qed.

(** C4. Upload rejection with atomicity. In the order the code checks them:
    an input stream with no chunk is answered "no data"; otherwise, when no
    node's heartbeat is within the 10.0-second window, the answer is "no
    live nodes"; otherwise, when some buffered chunk has no live node among
    its replica candidates, the answer is "no live nodes for chunk". Each is
    an ordinary status message, and the state (the coordinator with its
    file index, the persisted metadata document, the storage nodes) is the
    one before the call: nothing is stored and nothing is saved. *)
Theorem upload_rejections fuel order now request_iterator w :
  (request_iterator = [] →
   UploadFile fuel order now request_iterator w
   = Some ({| pb.UploadStatus.message := "no data" |}, w)) ∧
  (request_iterator ≠ [] →
   (∀ n ts, _node_last_heartbeat (coordinator w) !! n = Some ts →
            within_window now ts = false) →
   UploadFile fuel order now request_iterator w
   = Some ({| pb.UploadStatus.message := "no live nodes" |}, w)) ∧
  (∀ first rest chunk node_ids,
     request_iterator = first :: rest →
     _live_nodes (coordinator w) now ≠ [] →
     ring_inv (_ring (coordinator w)) →
     (length (hash_ring._ring (_ring (coordinator w))) ≤ fuel)%nat →
     chunk ∈ request_iterator →
     hash_ring.get_nodes_for_key fuel (_ring (coordinator w))
       (pb.FileChunk.filename first +:+ ":" +:+ Py.str_of_int (pb.FileChunk.chunk_id chunk))
       (_replication (coordinator w)) = Some node_ids →
     filter (λ n, n ∈ _live_nodes (coordinator w) now) node_ids = [] →
     UploadFile fuel order now request_iterator w
     = Some ({| pb.UploadStatus.message := "no live nodes for chunk" |}, w)).
Proof.
  split_and!.
  - by intros ->.
  - intros Hne Hstale. destruct request_iterator as [|first rest]; [done|].
    unfold UploadFile. by rewrite live_nodes_nil.
  - intros first rest chunk node_ids -> Hlive Hinv Hfuel Hin Hget Hnone.
    unfold UploadFile.
    destruct (_live_nodes (coordinator w) now) as [|n live] eqn:Hl; [done|].
    by erewrite place_rejects.
Qed.
End upload_rejections.

Section coordinator_invariant.
Import master_server.

Lemma elem_of_nodes r n : n ∈ hash_ring.nodes r ↔ is_Some (hash_ring._nodes r !! n).
Proof.
  unfold hash_ring.nodes. rewrite list_elem_of_fmap. split.
  - intros ([n' pts] & -> & Hin%elem_of_map_to_list). by exists pts.
  - intros [pts Hpts]. exists (n, pts). split; [done|]. by apply elem_of_map_to_list.
Qed.

Lemma add_node_dom r n :
  dom (hash_ring._nodes (hash_ring.add_node r n)) =@{gset string}
  {[ n ]} ∪ dom (hash_ring._nodes r).
Proof.
  unfold hash_ring.add_node. destruct (hash_ring._nodes r !! n) eqn:Hn; simpl.
  - apply (elem_of_dom_2 (D:=gset string)) in Hn. set_solver.
  - by rewrite dom_insert_L.
Qed.

(** What [RegisterNode] and the loop of [_load_metadata] do for one node. *)
Lemma enroll_inv c ring' node_id address now :
  coord_inv c →
  ring' = hash_ring.add_node (_ring c) node_id →
  coord_inv {| _replication := _replication c; _ring := ring';
               _node_address := <[node_id := address]> (_node_address c);
               _node_last_heartbeat := <[node_id := now]> (_node_last_heartbeat c);
               _file_index := _file_index c |}.
Proof.
  intros [Hr Hf Hh Ha] ->. split; simpl.
  - by apply add_node_inv.
  - by rewrite add_node_factor.
  - by rewrite dom_insert_L, add_node_dom, Hh.
  - by rewrite dom_insert_L, add_node_dom, Ha.
Qed.

Lemma fresh_inv replication file_index :
  coord_inv {| _replication := replication; _ring := hash_ring.new 128;
               _node_address := ∅; _node_last_heartbeat := ∅;
               _file_index := file_index |}.
Proof. split; simpl; [apply new_inv|done|by rewrite !dom_empty_L..]. Qed.

Lemma init_inv replication now file nodes_up :
  coord_inv (coordinator (init replication now file nodes_up)).
Proof.
  unfold init. destruct file as [doc|]; simpl; [|apply fresh_inv].
  apply (map_fold_weak_ind (λ c _, coord_inv c)); [apply fresh_inv|].
  intros node_id address m c _ Hc. by apply enroll_inv.
Qed.

Lemma RegisterNode_inv now request w :
  coord_inv (coordinator w) → coord_inv (coordinator (RegisterNode now request w).2).
Proof.
  intros Hc. unfold RegisterNode. simpl. apply enroll_inv; [done|].
  case_bool_decide as Hin; [|done].
  apply elem_of_nodes in Hin as [pts Hpts].
  unfold hash_ring.add_node. by rewrite Hpts.
Qed.

Lemma Heartbeat_inv now request w :
  coord_inv (coordinator w) → coord_inv (coordinator (Heartbeat now request w).2).
Proof.
  intros [Hr Hf Hh Ha]. unfold Heartbeat.
  destruct (_node_address (coordinator w) !! pb.NodeHeartbeat.node_id request)
    as [address|] eqn:Hn; simpl; [|by split].
  split; simpl; [done..| |done].
  rewrite dom_insert_L, Hh.
  apply (elem_of_dom_2 (D:=gset string)) in Hn. rewrite Ha in Hn. set_solver.
Qed.

Lemma UploadFile_inv fuel order now request_iterator w status w' :
  UploadFile fuel order now request_iterator w = Some (status, w') →
  coord_inv (coordinator w) → coord_inv (coordinator w').
Proof.
  unfold UploadFile. intros Hup Hc.
  destruct request_iterator as [|first rest]; [by simplify_eq|].
  destruct (_live_nodes (coordinator w) now); [by simplify_eq|].
  destruct (place _ _ _ _ _ _) as [[message|placements]|]; simplify_eq/=; [done|].
  by destruct Hc.
Qed.

Lemma step_inv w e : coord_inv (coordinator w) → coord_inv (coordinator (step w e)).
Proof. destruct e; simpl; [apply RegisterNode_inv|apply Heartbeat_inv]. Qed.

(** Every state reached from a start of the coordinator by registrations
    and heartbeats satisfies the invariant. *)
Lemma reachable_inv replication now file nodes_up events :
  coord_inv (coordinator (foldl step (init replication now file nodes_up) events)).
Proof.
  generalize (init_inv replication now file nodes_up).
  generalize (init replication now file nodes_up).
  induction events as [|e events IH]; intros w Hw; simpl; [done|].
  by apply IH, step_inv.
Qed.
End coordinator_invariant.

Section chunking_facts.
Import Py.

Lemma slice_from_past {A} (l : list A) i lo hi : hi ≤ i → slice_from i l lo hi = [].
Proof.
  revert i. induction l as [|x l IH]; intros i Hi; [done|].
  simpl. rewrite bool_decide_eq_false_2 by lia. apply IH. lia.
Qed.

Lemma slice_from_app {A} (l : list A) i lo mid hi :
  lo ≤ mid ≤ hi →
  slice_from i l lo mid ++ slice_from i l mid hi = slice_from i l lo hi.
Proof.
  intros Hb. revert i. induction l as [|x l IH]; intros i; [done|].
  simpl. rewrite <-(IH (i + 1)).
  repeat case_bool_decide; try lia; try done.
  by rewrite (slice_from_past l (i + 1) lo mid) by lia.
Qed.

Lemma slice_from_all {A} (l : list A) i lo hi :
  lo ≤ i → i + Z.of_nat (length l) ≤ hi → slice_from i l lo hi = l.
Proof.
  revert i. induction l as [|x l IH]; intros i Hlo Hhi; [done|].
  simpl in *. rewrite bool_decide_eq_true_2 by lia.
  f_equal. apply IH; lia.
Qed.

Lemma slice_from_none {A} (l : list A) i lo hi : hi ≤ lo → slice_from i l lo hi = [].
Proof.
  intros Hb. revert i. induction l as [|x l IH]; intros i; [done|].
  simpl. by rewrite bool_decide_eq_false_2 by lia.
Qed.

(** The first [k] chunks of size [cs], put end to end, are the first
    [k * cs] bytes. *)
Lemma concat_slices {A} (data : list A) cs (k : nat) :
  0 ≤ cs →
  concat ((λ i, slice data (i * cs) (i * cs + cs)) <$> seqZ 0 (Z.of_nat k))
  = slice data 0 (Z.of_nat k * cs).
Proof.
  intros Hcs. induction k as [|k IH].
  - simpl. unfold slice. by rewrite slice_from_none by lia.
  - rewrite seqZ_S, fmap_app, concat_app, IH. simpl.
    rewrite app_nil_r. unfold slice.
    rewrite slice_from_app by lia. f_equal. lia.
Qed.

Lemma chunk_count_covers len cs :
  0 < cs → 0 ≤ len → len ≤ (len + cs - 1) / cs * cs ∧ 0 ≤ (len + cs - 1) / cs.
Proof.
  intros Hcs Hlen.
  pose proof (Z.div_mod (len + cs - 1) cs) as Hdm.
  pose proof (Z.mod_pos_bound (len + cs - 1) cs Hcs).
  split; [nia|]. apply Z.div_pos; lia.
Qed.

Lemma chunk_count_pos len cs : 0 < cs → 0 < len → 0 < (len + cs - 1) / cs.
Proof. intros Hcs Hlen. apply Z.div_str_pos. lia. Qed.

Lemma string_app_inj_r t s1 s2 : s1 +:+ t = s2 +:+ t → s1 = s2.
Proof.
  revert s2. induction s1 as [|a s1 IH]; intros [|b s2] Heq.
  - done.
  - apply (f_equal String.length) in Heq.
    rewrite !string_length_app in Heq. simpl in Heq. lia.
  - apply (f_equal String.length) in Heq.
    rewrite !string_length_app in Heq. simpl in Heq. lia.
  - change (String a (s1 +:+ t) = String b (s2 +:+ t)) in Heq.
    injection Heq as -> Heq. f_equal. by apply IH.
Qed.

(** For one filename, distinct chunk ids have distinct locations. *)
Lemma chunk_path_inj filename i j :
  node_server._chunk_path filename i = node_server._chunk_path filename j → i = j.
Proof.
  unfold node_server._chunk_path, str_of_int. intros Heq.
  apply (inj (String.app _)) in Heq. apply (inj (String.app _)) in Heq.
  apply string_app_inj_r in Heq. by apply (inj pretty) in Heq.
Qed.

Lemma filter_all {A} (P : A → Prop) `{!∀ x, Decision (P x)} (l : list A) :
  (∀ x, x ∈ l → P x) → filter P l = l.
Proof.
  induction l as [|x l IH]; intros Hall; [done|].
  rewrite filter_cons, decide_True by apply Hall, list_elem_of_here.
  f_equal. apply IH. intros y Hy. by apply Hall, list_elem_of_further.
Qed.
End chunking_facts.

Section fanout_facts.
Import master_server.

Lemma store_to_node_hit c nodes_up job a disk :
  _node_address c !! job.1 = Some a → nodes_up !! a = Some disk →
  store_to_node c nodes_up job = <[a := (node_server.StoreChunk disk job.2).1]> nodes_up.
Proof. intros Ha Hd. unfold store_to_node. by rewrite Ha, Hd. Qed.

Lemma store_to_node_up c nodes_up job a :
  is_Some (nodes_up !! a) → is_Some (store_to_node c nodes_up job !! a).
Proof.
  intros Ha. unfold store_to_node.
  destruct (_node_address c !! job.1) as [address|]; [|done].
  destruct (nodes_up !! address) as [disk|] eqn:Hd; [|done].
  destruct (decide (address = a)) as [->|Hne].
  - rewrite lookup_insert_eq. by eexists.
  - by rewrite lookup_insert_ne.
Qed.

Lemma stores_up c jobs nodes_up a :
  is_Some (nodes_up !! a) → is_Some (foldl (store_to_node c) nodes_up jobs !! a).
Proof.
  revert nodes_up. induction jobs as [|job jobs IH]; intros nodes_up Ha; [done|].
  simpl. by apply IH, store_to_node_up.
Qed.

Lemma stores_dom c jobs nodes_up :
  dom (foldl (store_to_node c) nodes_up jobs) =@{gset string} dom nodes_up.
Proof.
  revert nodes_up. induction jobs as [|job jobs IH]; intros nodes_up; [done|].
  cbn [foldl]. rewrite IH. unfold store_to_node.
  destruct (_node_address c !! job.1) as [address|]; [|done].
  destruct (nodes_up !! address) as [disk|] eqn:Hd; [|done].
  by apply dom_insert_lookup_L.
Qed.

(** A payload stays where it is while the jobs that follow write the same
    payload to its location, on whichever node. *)
Lemma stores_keep c jobs nodes_up a disk p d :
  nodes_up !! a = Some disk → disk !! p = Some d →
  (∀ job, job ∈ jobs → job_path job = p → pb.FileChunk.data job.2 = d) →
  ∃ disk', foldl (store_to_node c) nodes_up jobs !! a = Some disk' ∧ disk' !! p = Some d.
Proof.
  revert nodes_up disk. induction jobs as [|job jobs IH]; intros nodes_up disk Ha Hp Hsame.
  { by exists disk. }
  simpl.
  assert (∃ disk1, store_to_node c nodes_up job !! a = Some disk1 ∧ disk1 !! p = Some d)
    as (disk1 & Ha1 & Hp1).
  { unfold store_to_node.
    destruct (_node_address c !! job.1) as [address|]; [|by exists disk].
    destruct (nodes_up !! address) as [disk0|] eqn:Hd; [|by exists disk].
    destruct (decide (address = a)) as [->|Hne].
    - rewrite lookup_insert_eq. eexists. split; [done|].
      assert (disk0 = disk) as -> by congruence.
      destruct (decide (job_path job = p)) as [Hjp|Hjp].
      + unfold node_server.StoreChunk.
        destruct (node_server.name_error _ _); [done|]. cbn [fst].
        unfold job_path in Hjp. rewrite Hjp, lookup_insert_eq.
        f_equal. apply Hsame; [apply list_elem_of_here|done].
      + by rewrite StoreChunk_other.
    - rewrite lookup_insert_ne by done. by exists disk. }
  apply (IH _ disk1); [done..|].
  intros job' Hin. by apply Hsame, list_elem_of_further.
Qed.

(** After the jobs have run, in any order, every job's payload is at its
    location on the node it was sent to, provided that node answers and
    takes the name, and that jobs for one location carry one payload. *)
Lemma stores_land c jobs nodes_up job a :
  job ∈ jobs →
  node_server.name_error (pb.FileChunk.filename job.2) (pb.FileChunk.chunk_id job.2) = None →
  _node_address c !! job.1 = Some a → is_Some (nodes_up !! a) →
  (∀ j1 j2, j1 ∈ jobs → j2 ∈ jobs → job_path j1 = job_path j2 →
            pb.FileChunk.data j1.2 = pb.FileChunk.data j2.2) →
  ∃ disk, foldl (store_to_node c) nodes_up jobs !! a = Some disk ∧
          disk !! job_path job = Some (pb.FileChunk.data job.2).
Proof.
  intros Hin Hname Ha Hup Hcons.
  destruct (list_elem_of_split _ _ Hin) as (l1 & l2 & Hjobs).
  rewrite Hjobs, foldl_app. simpl.
  destruct (stores_up c l1 nodes_up a Hup) as [disk1 Hd1].
  assert (∃ disk2, store_to_node c (foldl (store_to_node c) nodes_up l1) job !! a
                   = Some disk2 ∧
                   disk2 !! job_path job = Some (pb.FileChunk.data job.2))
    as (disk2 & Hd2 & Hp2).
  { rewrite (store_to_node_hit _ _ _ _ _ Ha Hd1), lookup_insert_eq.
    eexists. split; [done|]. rewrite StoreChunk_ok by done.
    apply lookup_insert_eq. }
  apply (stores_keep c l2 _ a disk2); [done..|].
  intros job' Hin' Hpath. apply Hcons; [| |done].
  - rewrite Hjobs. apply elem_of_app. right. by apply list_elem_of_further.
  - done.
Qed.

Lemma elem_of_fanout_jobs chunks placements nid chunk :
  (nid, chunk) ∈ fanout_jobs chunks placements ↔
  chunk ∈ chunks ∧ nid ∈ default [] (placements !! pb.FileChunk.chunk_id chunk).
Proof.
  unfold fanout_jobs. rewrite list_elem_of_bind. split.
  - intros (ch & (n & [= -> ->] & Hn)%list_elem_of_fmap & Hch). done.
  - intros [Hch Hn]. exists chunk. split; [|done].
    apply list_elem_of_fmap. by exists nid.
Qed.
End fanout_facts.

Section placement_facts.
Import master_server.

(** When every chunk has a live candidate, the placement loop runs to its
    end and records for each chunk the live ones of its candidates. *)
Lemma place_accepts fuel c filename live_nodes chunks placements :
  agrees fuel c filename live_nodes placements →
  (∀ chunk, chunk ∈ chunks →
     ∃ l nid,
       hash_ring.get_nodes_for_key fuel (_ring c)
         (filename +:+ ":" +:+ Py.str_of_int (pb.FileChunk.chunk_id chunk)) (_replication c)
       = Some l ∧ nid ∈ l ∧ nid ∈ live_nodes) →
  ∃ placed,
    place fuel c filename live_nodes chunks placements = Some (inr placed) ∧
    agrees fuel c filename live_nodes placed ∧
    (∀ i, is_Some (placements !! i) → is_Some (placed !! i)) ∧
    (∀ chunk, chunk ∈ chunks → is_Some (placed !! pb.FileChunk.chunk_id chunk)).
Proof.
  revert placements. induction chunks as [|ch chunks IH]; intros placements Hagree Hcand.
  { exists placements. split_and!; [done..|]. by intros ? ?%elem_of_nil. }
  cbn [place].
  destruct (Hcand ch) as (l & nid & Hget & Hnid & Hlive); [apply list_elem_of_here|].
  rewrite Hget. cbn [mbind option_bind].
  destruct (filter (λ n, n ∈ live_nodes) l) as [|n0 kept] eqn:Hkept.
  { assert (nid ∈ filter (λ n, n ∈ live_nodes) l) as Hin
      by by apply list_elem_of_filter.
    rewrite Hkept in Hin. by apply elem_of_nil in Hin. }
  destruct (IH (<[pb.FileChunk.chunk_id ch := n0 :: kept]> placements))
    as (placed & Hplace & Hagree' & Hkeep & Hall).
  { intros i l'. destruct (decide (pb.FileChunk.chunk_id ch = i)) as [<-|Hne].
    - rewrite lookup_insert_eq. intros [= <-]. by exists l.
    - rewrite lookup_insert_ne by done. apply Hagree. }
  { intros chunk Hin. by apply Hcand, list_elem_of_further. }
  exists placed. split_and!; [done|done| |].
  - intros i Hi. apply Hkeep.
    destruct (decide (pb.FileChunk.chunk_id ch = i)) as [<-|Hne].
    + rewrite lookup_insert_eq. by eexists.
    + by rewrite lookup_insert_ne.
  - intros chunk [->|Hin]%elem_of_cons; [|by apply Hall].
    apply Hkeep. rewrite lookup_insert_eq. by eexists.
Qed.

(** An upload of a stream with at least one chunk, each chunk with a live
    candidate, is accepted; the state it leaves differs from the one before
    in the file index, the metadata document and the payloads the fan-out
    stored. *)
Lemma upload_accepts fuel order now w first rest :
  (∀ chunk, chunk ∈ first :: rest →
     ∃ l nid,
       hash_ring.get_nodes_for_key fuel (_ring (coordinator w))
         (pb.FileChunk.filename first +:+ ":" +:+ Py.str_of_int (pb.FileChunk.chunk_id chunk))
         (_replication (coordinator w))
       = Some l ∧ nid ∈ l ∧ nid ∈ _live_nodes (coordinator w) now) →
  ∃ placed w',
    UploadFile fuel order now (first :: rest) w
      = Some ({| pb.UploadStatus.message := "ok" |}, w') ∧
    agrees fuel (coordinator w) (pb.FileChunk.filename first)
      (_live_nodes (coordinator w) now) placed ∧
    (∀ chunk, chunk ∈ first :: rest → is_Some (placed !! pb.FileChunk.chunk_id chunk)) ∧
    cluster w' = foldl (store_to_node (coordinator w)) (cluster w)
                   (order (fanout_jobs (first :: rest) placed)) ∧
    _ring (coordinator w') = _ring (coordinator w) ∧
    _replication (coordinator w') = _replication (coordinator w) ∧
    _node_address (coordinator w') = _node_address (coordinator w) ∧
    _node_last_heartbeat (coordinator w') = _node_last_heartbeat (coordinator w) ∧
    _file_index (coordinator w')
      = <[pb.FileChunk.filename first :=
            {[ "total_chunks" :=
                 if bool_decide (pb.FileChunk.total_chunks first = 0)
                 then Z.of_nat (length (first :: rest))
                 else pb.FileChunk.total_chunks first ]}]> (_file_index (coordinator w)).
Proof.
  intros Hcand.
  destruct (place_accepts fuel (coordinator w) (pb.FileChunk.filename first)
              (_live_nodes (coordinator w) now) (first :: rest) ∅)
    as (placed & Hplace & Hagree & _ & Hall); [|done|].
  { intros i l. by rewrite lookup_empty. }
  exists placed. eexists. split_and!; [|done|done|..].
  - unfold UploadFile.
    destruct (_live_nodes (coordinator w) now) as [|n live] eqn:Hl.
    { destruct (Hcand first) as (l & nid & _ & _ & Hnid); [apply list_elem_of_here|].
      by apply elem_of_nil in Hnid. }
    rewrite Hplace. cbn [mbind option_bind]. reflexivity.
  - done.
  - done.
  - done.
  - done.
  - done.
  - done.
Qed.
End placement_facts.

Section download_facts.
Import master_server.

(** The candidates of a chunk are tried in order; those that are not live
    or do not answer are passed over. When every live candidate has an
    address and every one that answers holds the payload, and one live
    candidate answers, the chunk is sent with that payload. *)
Lemma fetch_live c nodes_up live_nodes filename cid node_ids d :
  node_server.name_error filename cid = None →
  (∀ nid, nid ∈ node_ids → nid ∈ live_nodes → is_Some (_node_address c !! nid)) →
  (∀ nid a disk, nid ∈ node_ids → nid ∈ live_nodes →
     _node_address c !! nid = Some a → nodes_up !! a = Some disk →
     disk !! node_server._chunk_path filename cid = Some d) →
  (∃ nid a, nid ∈ node_ids ∧ nid ∈ live_nodes ∧
            _node_address c !! nid = Some a ∧ is_Some (nodes_up !! a)) →
  fetch c nodes_up live_nodes filename cid node_ids
  = Sent {| pb.FileChunk.filename := filename; pb.FileChunk.data := d;
            pb.FileChunk.chunk_id := cid; pb.FileChunk.total_chunks := 0 |}.
Proof.
  intros Hname. induction node_ids as [|nid rest IH]; intros Haddr Hheld Hone.
  { destruct Hone as (nid & a & Hin & _). by apply elem_of_nil in Hin. }
  assert (∀ n, n ∈ rest → n ∈ live_nodes → is_Some (_node_address c !! n)) as Haddr'
    by (intros n Hn; by apply Haddr, list_elem_of_further).
  assert (∀ n a disk, n ∈ rest → n ∈ live_nodes →
            _node_address c !! n = Some a → nodes_up !! a = Some disk →
            disk !! node_server._chunk_path filename cid = Some d) as Hheld'
    by (intros n a disk Hn; by apply Hheld, list_elem_of_further).
  cbn [fetch]. case_bool_decide as Hlive.
  - destruct (Haddr nid) as [a Ha]; [apply list_elem_of_here|done|].
    rewrite Ha. destruct (nodes_up !! a) as [disk|] eqn:Hd.
    + rewrite GetChunk_ok by done.
      by rewrite (Hheld nid a disk (list_elem_of_here _ _) Hlive Ha Hd).
    + apply IH; [done..|].
      destruct Hone as (n & a' & [->|Hin]%elem_of_cons & Hn & Ha' & Hup).
      * rewrite Ha in Ha'. injection Ha' as <-. rewrite Hd in Hup. by destruct Hup.
      * by exists n, a'.
  - apply IH; [done..|].
    destruct Hone as (n & a' & [->|Hin]%elem_of_cons & Hn & Ha' & Hup); [done|].
    by exists n, a'.
Qed.

(** When the candidates of every chunk yield the chunk, the download
    streams every chunk and ends normally. *)
Lemma download_loop_ok fuel w live_nodes filename cids (payload : Z → list byte) :
  (∀ cid, cid ∈ cids →
     ∃ l,
       hash_ring.get_nodes_for_key fuel (_ring (coordinator w))
         (filename +:+ ":" +:+ Py.str_of_int cid) (_replication (coordinator w))
         = Some l ∧
       fetch (coordinator w) (cluster w) live_nodes filename cid l
       = Sent {| pb.FileChunk.filename := filename; pb.FileChunk.data := payload cid;
                 pb.FileChunk.chunk_id := cid; pb.FileChunk.total_chunks := 0 |}) →
  download_loop fuel w live_nodes filename cids
  = Some ((λ cid, {| pb.FileChunk.filename := filename; pb.FileChunk.data := payload cid;
                     pb.FileChunk.chunk_id := cid; pb.FileChunk.total_chunks := 0 |})
            <$> cids, None).
Proof.
  induction cids as [|cid cids IH]; intros Hall; [done|].
  cbn [download_loop].
  destruct (Hall cid) as (l & Hget & Hfetch); [apply list_elem_of_here|].
  rewrite Hget. cbn [mbind option_bind]. rewrite Hfetch.
  rewrite IH by (intros cid' Hin; by apply Hall, list_elem_of_further).
  done.
Qed.

Lemma live_nodes_same c c' now :
  _node_last_heartbeat c' = _node_last_heartbeat c → _live_nodes c' now = _live_nodes c now.
Proof. unfold _live_nodes. by intros ->. Qed.

Lemma default_chunk_size : client.DEFAULT_CHUNK_SIZE = 1048576.
Proof. reflexivity. Qed.
End download_facts.

Section roundtrip_theorem.
Import master_server.

(** [data[lo:hi]] for [0 <= lo]: [hi - lo] items after the first [lo]. *)
Lemma slice_from_take_drop {A} (l : list A) i lo hi :
  Py.slice_from i l lo hi
  = take (Z.to_nat (hi - Z.max lo i)) (drop (Z.to_nat (lo - i)) l).
Proof.
  revert i. induction l as [|x l IH]; intros i.
  { by rewrite drop_nil, take_nil. }
  cbn [Py.slice_from]. case_bool_decide as Hin.
  - rewrite IH.
    replace (Z.to_nat (lo - i)) with 0%nat by lia.
    replace (Z.to_nat (lo - (i + 1))) with 0%nat by lia.
    replace (Z.to_nat (hi - Z.max lo i)) with (S (Z.to_nat (hi - Z.max lo (i + 1)))) by lia.
    done.
  - destruct (decide (hi ≤ i)) as [Hhi|Hhi].
    + rewrite slice_from_past by lia.
      replace (Z.to_nat (hi - Z.max lo i)) with 0%nat by lia. done.
    + rewrite IH.
      replace (Z.to_nat (lo - i)) with (S (Z.to_nat (lo - (i + 1)))) by lia.
      replace (Z.max lo (i + 1)) with (Z.max lo i) by lia. done.
Qed.

(** What the generator yields for the default chunk size. *)
Lemma stream_file_chunks_default filepath data :
  client.stream_file_chunks filepath data client.DEFAULT_CHUNK_SIZE
  = Py.Ok ((λ i, {| pb.FileChunk.filename := Py.basename filepath;
                    pb.FileChunk.data :=
                      Py.slice data (i * 1048576) (i * 1048576 + 1048576);
                    pb.FileChunk.chunk_id := i;
                    pb.FileChunk.total_chunks :=
                      (Z.of_nat (length data) + 1048575) / 1048576 |})
             <$> seqZ 0 ((Z.of_nat (length data) + 1048575) / 1048576)).
Proof.
  unfold client.stream_file_chunks. rewrite bool_decide_eq_false_2 by done.
  rewrite default_chunk_size. unfold Py.range.
  by replace (Z.of_nat (length data) + 1048576 - 1)
    with (Z.of_nat (length data) + 1048575) by lia.
Qed.

(** C1, amended. Round-trip transfer: uploading a file of at least one byte
    through the coordination service and then downloading it by its base
    name reproduces the original bytes exactly, whatever the size (below
    one chunk, exactly one chunk, several chunks). The client sends the
    size divided by 1,048,576, rounded up, chunks; chunk [i] carries the
    base name, the id [i], that count, and the 1,048,576 bytes that start
    at offset [i * 1,048,576], or those that are left when they are fewer.
    This holds in every state the coordinator reaches, for every order in
    which the fan-out runs its stores, when the storage nodes' file system
    takes the name of each chunk, every node that is live at the time of
    the download was live at the time of the upload, and each chunk has,
    among the candidates the ring gives for it, one that is live at the
    time of the download and answers at its address. Nodes that are
    registered and not live, or not answering, are passed over. *)
Theorem upload_download_roundtrip fuel order now1 now2 filepath data w :
  coord_inv (coordinator w) →
  (length (hash_ring._ring (_ring (coordinator w))) ≤ fuel)%nat →
  (∀ jobs, order jobs ≡ₚ jobs) →
  data ≠ [] →
  (∀ i, 0 ≤ i < (Z.of_nat (length data) + 1048575) / 1048576 →
        node_server.name_error (Py.basename filepath) i = None) →
  (∀ n, n ∈ _live_nodes (coordinator w) now2 → n ∈ _live_nodes (coordinator w) now1) →
  (∀ i node_ids,
     0 ≤ i < (Z.of_nat (length data) + 1048575) / 1048576 →
     hash_ring.get_nodes_for_key fuel (_ring (coordinator w))
       (Py.basename filepath +:+ ":" +:+ Py.str_of_int i) (_replication (coordinator w))
     = Some node_ids →
     ∃ nid address,
       nid ∈ node_ids ∧ nid ∈ _live_nodes (coordinator w) now2 ∧
       _node_address (coordinator w) !! nid = Some address ∧
       is_Some (cluster w !! address)) →
  ∃ chunks,
    client.stream_file_chunks filepath data client.DEFAULT_CHUNK_SIZE = Py.Ok chunks ∧
    length chunks = Z.to_nat ((Z.of_nat (length data) + 1048575) / 1048576) ∧
    (∀ i, 0 ≤ i < (Z.of_nat (length data) + 1048575) / 1048576 →
       chunks !! Z.to_nat i
       = Some {| pb.FileChunk.filename := Py.basename filepath;
                 pb.FileChunk.data :=
                   take (Z.to_nat 1048576) (drop (Z.to_nat (i * 1048576)) data);
                 pb.FileChunk.chunk_id := i;
                 pb.FileChunk.total_chunks :=
                   (Z.of_nat (length data) + 1048575) / 1048576 |} ∧
       Z.of_nat (length (take (Z.to_nat 1048576) (drop (Z.to_nat (i * 1048576)) data)))
       = Z.min 1048576 (Z.of_nat (length data) - i * 1048576)) ∧
    ∃ w', client.upload fuel order now1 filepath data w = Some ("ok", w') ∧
          client.download fuel now2 (Py.basename filepath) w' = Some (inr data).
Proof.
  intros Hinv Hfuel Horder Hdata Hname HL HC.
  set (base := Py.basename filepath) in *.
  set (total := (Z.of_nat (length data) + 1048575) / 1048576) in *.
  set (payload := λ i : Z, Py.slice data (i * 1048576) (i * 1048576 + 1048576)).
  set (mk := λ i : Z,
         {| pb.FileChunk.filename := base; pb.FileChunk.data := payload i;
            pb.FileChunk.chunk_id := i; pb.FileChunk.total_chunks := total |}).
  assert (0 < Z.of_nat (length data)) as Hlen by (destruct data; [done|]; simpl; lia).
  assert (0 < total) as Htotal by (apply Z.div_str_pos; lia).
  assert (Z.of_nat (length data) ≤ total * 1048576 ∧
          (total - 1) * 1048576 < Z.of_nat (length data)) as [Hcover Hlast].
  { pose proof (Z.div_mod (Z.of_nat (length data) + 1048575) 1048576) as Hdm.
    pose proof (Z.mod_pos_bound (Z.of_nat (length data) + 1048575) 1048576).
    fold total in Hdm. lia. }
  assert (client.stream_file_chunks filepath data client.DEFAULT_CHUNK_SIZE
          = Py.Ok (mk <$> seqZ 0 total)) as Hstream
    by apply stream_file_chunks_default.
  assert (∀ i, 0 ≤ i < total →
            payload i = take (Z.to_nat 1048576) (drop (Z.to_nat (i * 1048576)) data))
    as Hpayload.
  { intros i Hi. unfold payload, Py.slice. rewrite slice_from_take_drop.
    f_equal; [lia|]. f_equal. lia. }
  exists (mk <$> seqZ 0 total).
  split; [done|]. split; [by rewrite length_fmap, length_seqZ|]. split.
  { intros i Hi. split.
    - rewrite list_lookup_fmap, (lookup_seqZ_lt 0 total (Z.to_nat i)) by lia.
      cbn [fmap option_fmap option_map]. unfold mk.
      replace (0 + Z.of_nat (Z.to_nat i)) with i by lia.
      by rewrite Hpayload.
    - rewrite length_take, length_drop. lia. }
  set (chunks := mk <$> seqZ 0 total) in *.
  assert (∀ key, ∃ l, hash_ring.get_nodes_for_key fuel (_ring (coordinator w)) key
                        (_replication (coordinator w)) = Some l) as Hret
    by (intros key; apply get_nodes_for_key_returns; [apply Hinv|done]).
  assert (∀ chunk, chunk ∈ chunks ↔ ∃ i, 0 ≤ i < total ∧ chunk = mk i) as Hchunks.
  { intros chunk. unfold chunks. rewrite list_elem_of_fmap.
    setoid_rewrite elem_of_seqZ. split.
    - intros (i & -> & Hi). exists i. split; [lia|done].
    - intros (i & Hi & ->). exists i. split; [done|lia]. }
  assert (∃ rest, chunks = mk 0 :: rest) as [rest Hlist].
  { unfold chunks. rewrite seqZ_cons by lia. rewrite fmap_cons. by eexists. }
  destruct (upload_accepts fuel order now1 w (mk 0) rest)
    as (placed & w' & Hupload & Hagree & Hplaced & Hcluster & Hring & Hrep & Haddr & Hhb
        & Hindex).
  { intros chunk Hin. rewrite <-Hlist in Hin. apply Hchunks in Hin as (i & Hi & ->).
    destruct (Hret (base +:+ ":" +:+ Py.str_of_int i)) as [l Hl].
    destruct (HC i l Hi Hl) as (nid & a & Hnid & Hlive & _).
    exists l, nid. split_and!; [done|done|by apply HL]. }
  change (pb.FileChunk.filename (mk 0)) with base in Hagree, Hindex.
  change (pb.FileChunk.total_chunks (mk 0)) with total in Hindex.
  rewrite bool_decide_eq_false_2 in Hindex by lia.
  exists w'. split.
  { unfold client.upload. rewrite Hstream. cbv beta iota. by rewrite Hlist, Hupload. }
  (* what the candidates of each chunk yield after the fan-out *)
  assert (∀ cid, 0 ≤ cid < total →
            ∃ l,
              hash_ring.get_nodes_for_key fuel (_ring (coordinator w'))
                (base +:+ ":" +:+ Py.str_of_int cid) (_replication (coordinator w'))
                = Some l ∧
              fetch (coordinator w') (cluster w') (_live_nodes (coordinator w') now2)
                base cid l
              = Sent {| pb.FileChunk.filename := base; pb.FileChunk.data := payload cid;
                        pb.FileChunk.chunk_id := cid; pb.FileChunk.total_chunks := 0 |})
    as Hstored.
  { intros cid Hcid.
    destruct (Hret (base +:+ ":" +:+ Py.str_of_int cid)) as [l Hl].
    exists l. rewrite Hring, Hrep. split; [done|].
    rewrite (live_nodes_same _ _ _ Hhb).
    apply fetch_live.
    - by apply Hname.
    - intros nid _ (ts & Hts & _)%elem_of_live_nodes. rewrite Haddr.
      apply (elem_of_dom (D:=gset string)).
      rewrite (ci_address _ Hinv), <-(ci_heartbeat _ Hinv).
      apply (elem_of_dom (D:=gset string)). by eexists.
    - intros nid a disk Hnid Hlive Ha Hd. rewrite Haddr in Ha. rewrite Hcluster in Hd.
      assert (mk cid ∈ mk 0 :: rest) as Hin
        by (rewrite <-Hlist; apply Hchunks; by exists cid).
      destruct (Hplaced _ Hin) as [l' Hl'].
      change (pb.FileChunk.chunk_id (mk cid)) with cid in Hl'.
      destruct (Hagree _ _ Hl') as (l0 & Hl0 & ->).
      rewrite Hl in Hl0. injection Hl0 as <-.
      destruct (stores_land (coordinator w) (order (fanout_jobs (mk 0 :: rest) placed))
                  (cluster w) (nid, mk cid) a) as (disk' & Hdisk' & Hp).
      + rewrite Horder. apply elem_of_fanout_jobs. split; [done|].
        change (pb.FileChunk.chunk_id (mk cid)) with cid. rewrite Hl'.
        apply list_elem_of_filter. split; [by apply HL|done].
      + by apply Hname.
      + done.
      + apply (elem_of_dom (D:=gset string)).
        rewrite <-(stores_dom (coordinator w)
                     (order (fanout_jobs (mk 0 :: rest) placed)) (cluster w)).
        apply (elem_of_dom (D:=gset string)). by eexists.
      + intros [n1 c1] [n2 c2]. rewrite !Horder, !elem_of_fanout_jobs.
        rewrite <-Hlist.
        intros [(i1 & _ & ->)%Hchunks _] [(i2 & _ & ->)%Hchunks _]. unfold job_path.
        change (node_server._chunk_path base i1 = node_server._chunk_path base i2 →
                payload i1 = payload i2).
        by intros ->%chunk_path_inj.
      + rewrite Hd in Hdisk'. injection Hdisk' as <-. exact Hp.
    - destruct (HC cid l Hcid Hl) as (nid & a & Hnid & Hlive & Ha & Hup).
      exists nid, a. rewrite Haddr, Hcluster. split_and!; [done..|]. by apply stores_up. }
  (* the download *)
  unfold client.download, DownloadFile.
  cbn [pb.FileRequest.filename].
  rewrite Hindex, lookup_insert_eq.
  rewrite bool_decide_eq_false_2.
  2:{ intros He. apply (f_equal (λ m : gmap string Z, m !! "total_chunks")) in He.
      by rewrite lookup_singleton_eq, lookup_empty in He. }
  rewrite lookup_singleton_eq. cbn [default].
  remember (_live_nodes (coordinator w') now2) as live2 eqn:Hl in |- *.
  destruct live2 as [|n live].
  { destruct (Hret (base +:+ ":" +:+ Py.str_of_int 0)) as [l0 Hl0].
    destruct (HC 0 l0 ltac:(lia) Hl0) as (nid & a & _ & Hlive & _).
    rewrite <-(live_nodes_same _ _ _ Hhb), <-Hl in Hlive. by apply elem_of_nil in Hlive. }
  rewrite Hl.
  rewrite (download_loop_ok fuel w' _ base (Py.range total) payload).
  2:{ intros cid Hcid%elem_of_seqZ. apply Hstored. lia. }
  cbn [mbind option_bind snd fst]. do 2 f_equal. rewrite <-list_fmap_compose.
  unfold Py.range. rewrite <-(Z2Nat.id total) by lia.
  unfold payload.
  etrans; [apply (concat_slices data 1048576); lia|].
  unfold Py.slice. apply slice_from_all; [done|]. lia.
Qed.
End roundtrip_theorem.

Section coordinator_examples.
Import master_server.

Lemma example_inv replication : coord_inv (coordinator (example_world replication)).
Proof. apply reachable_inv. Qed.

Lemma example_inv2 replication : coord_inv (coordinator (example_world2 replication)).
Proof. apply reachable_inv. Qed.

Lemma example_heartbeats2 replication :
  _node_last_heartbeat (coordinator (example_world2 replication))
  = <["n1" := 110%float]> (<["n2" := 105%float]> (<["n1" := 100%float]> ∅)).
Proof. reflexivity. Qed.

Lemma example_live2 :
  _live_nodes (coordinator (example_world2 2)) 116%float = ["n1"] ∧
  _live_nodes (coordinator (example_world2 2)) 117%float = ["n1"].
Proof. split; by vm_compute. Qed.

(** C1 fails for a file of 0 bytes: the client sends no chunk, the upload is
    answered "no data" and records nothing, and the download of the name
    aborts with NOT_FOUND, although a storage node is registered, live and
    answering. *)
Lemma upload_empty_file_not_found :
  _live_nodes (coordinator (example_world 2)) 101%float = ["n1"] ∧
  client.stream_file_chunks "dir/e.txt" [] client.DEFAULT_CHUNK_SIZE = Py.Ok [] ∧
  client.upload 128 (λ jobs, jobs) 101%float "dir/e.txt" [] (example_world 2)
    = Some ("no data", example_world 2) ∧
  client.download 128 102%float (Py.basename "dir/e.txt") (example_world 2)
    = Some (inl (grpc.NOT_FOUND, "file not found")).
Proof. split_and!; by vm_compute. Qed.

(** Nor does a file with a name of 250 bytes come back: the storage node
    raises on every store, the coordinator logs that and answers "ok", and
    the download ends with UNAVAILABLE. *)
Lemma upload_long_name_unavailable :
  (λ r, (r.1, client.download 128 102%float (Py.basename example_long_name) r.2))
    <$> client.upload 128 (λ jobs, jobs) 101%float example_long_name [Byte.x61]
          (example_world 2)
  = Some ("ok", Some (inl (grpc.UNAVAILABLE, "chunk 0 unavailable"))).
Proof. by vm_compute. Qed.

(** Nor do the bytes come back when a candidate that was not live at the
    upload is live at the download and holds an older payload under the
    name: "n2", not live at the clock reading 116.0 of the upload, gets no
    store; at the reading 114.0 of the download it is live, it is the
    first candidate, and its older chunk is what the download returns. *)
Lemma download_reads_older_payload :
  (λ r, (r.1, client.download 256 114%float (Py.basename "dir/f.txt") r.2))
    <$> client.upload 256 (λ jobs, jobs) 116%float "dir/f.txt" [Byte.x61; Byte.x62]
          (example_world_old 2)
  = Some ("ok", Some (inr [Byte.x63])).
Proof. by vm_compute. Qed.

(** Two nodes at a replication count of 2, of which "n2", the first
    candidate of the one chunk, is not live: the chunk is stored on "n1"
    and read back from it. *)
Lemma upload_download_roundtrip_witness :
  hash_ring.get_nodes_for_key 256 (_ring (coordinator (example_world2 2))) "f.txt:0" 2
  = Some ["n2"; "n1"] ∧
  _live_nodes (coordinator (example_world2 2)) 116%float = ["n1"] ∧
  ∃ w', client.upload 256 (λ jobs, jobs) 116%float "dir/f.txt" [Byte.x61; Byte.x62]
          (example_world2 2) = Some ("ok", w') ∧
        client.download 256 117%float "f.txt" w' = Some (inr [Byte.x61; Byte.x62]).
Proof.
  assert ((Z.of_nat (length [Byte.x61; Byte.x62]) + 1048575) / 1048576 = 1) as Hone
    by reflexivity.
  destruct example_live2 as [Hlive1 Hlive2].
  assert (hash_ring.get_nodes_for_key 256 (_ring (coordinator (example_world2 2)))
            (Py.basename "dir/f.txt" +:+ ":" +:+ Py.str_of_int 0) 2
          = Some ["n2"; "n1"]) as Hcand by by vm_compute.
  split; [exact Hcand|]. split; [done|].
  destruct (upload_download_roundtrip 256 (λ jobs, jobs) 116%float 117%float
              "dir/f.txt" [Byte.x61; Byte.x62] (example_world2 2))
    as (chunks & _ & _ & _ & Hrt).
  - apply example_inv2.
  - vm_compute. lia.
  - done.
  - discriminate.
  - intros i _. apply name_error_short; [done|simpl; lia].
  - intros n. by rewrite Hlive1, Hlive2.
  - intros i node_ids Hi Hget. rewrite Hone in Hi.
    assert (i = 0) as -> by lia.
    assert (node_ids = ["n2"; "n1"]) as ->
      by (apply (inj Some); rewrite <-Hget; exact Hcand).
    exists "n1", "127.0.0.1:50051". rewrite Hlive2. split_and!.
    + apply list_elem_of_further, list_elem_of_here.
    + apply list_elem_of_here.
    + by vm_compute.
    + vm_compute. by eexists.
  - exact Hrt.
Defined.

(** The three rejections at the two-node coordinator with a replication
    count of 1. At time 116.0 "n1" is live and the one candidate of the
    chunk, "n2", is not: "no live nodes for chunk". At time 200.0 no node
    is live: "no live nodes". An empty stream: "no data". The state is the
    one before in each case. *)
Lemma upload_rejections_witness :
  _live_nodes (coordinator (example_world2 1)) 116%float = ["n1"] ∧
  hash_ring.get_nodes_for_key 256 (_ring (coordinator (example_world2 1))) "f.txt:0" 1
  = Some ["n2"] ∧
  UploadFile 256 (λ jobs, jobs) 116%float [example_chunk] (example_world2 1)
  = Some ({| pb.UploadStatus.message := "no live nodes for chunk" |}, example_world2 1) ∧
  UploadFile 256 (λ jobs, jobs) 200%float [example_chunk] (example_world2 1)
  = Some ({| pb.UploadStatus.message := "no live nodes" |}, example_world2 1) ∧
  UploadFile 256 (λ jobs, jobs) 116%float [] (example_world2 1)
  = Some ({| pb.UploadStatus.message := "no data" |}, example_world2 1).
Proof.
  assert (_live_nodes (coordinator (example_world2 1)) 116%float = ["n1"]) as Hlive
    by by vm_compute.
  assert (hash_ring.get_nodes_for_key 256 (_ring (coordinator (example_world2 1)))
            "f.txt:0" 1 = Some ["n2"]) as Hget by by vm_compute.
  split_and!; [done|done|..].
  - apply (proj2 (proj2 (upload_rejections 256 (λ jobs, jobs) 116%float [example_chunk]
                           (example_world2 1))) example_chunk [] example_chunk ["n2"]).
    + done.
    + by rewrite Hlive.
    + apply example_inv2.
    + vm_compute. lia.
    + apply list_elem_of_here.
    + exact Hget.
    + rewrite Hlive. by vm_compute.
  - apply (proj1 (proj2 (upload_rejections 256 (λ jobs, jobs) 200%float [example_chunk]
                           (example_world2 1)))); [done|].
    intros n ts. rewrite example_heartbeats2.
    intros [[_ <-]|[_ [[_ <-]|[_ [[_ <-]|[_ Hempty]]%lookup_insert_Some]]%lookup_insert_Some]]
      %lookup_insert_Some; [by vm_compute..|].
    by rewrite lookup_empty in Hempty.
  - by apply (proj1 (upload_rejections 256 (λ jobs, jobs) 116%float []
                       (example_world2 1))).
Defined.
End coordinator_examples.
